(** * Bridge It: the board, the connectivity check and the game engine

    A shallow embedding of [src/board.py], [src/player.py] and [src/game.py].
    Python integers are [Z]; the edge dictionary of a board is a [gmap] keyed
    by normalised node pairs; the [visited] set of the depth-first search is
    a [gset]; the engine's mutable fields are threaded explicitly and every
    engine operation returns its outcome (a value or a raised exception)
    together with the state it leaves behind. *)

From Stdlib Require Import ZArith List Lia.
From stdpp Require Import base decidable option numbers list relations
  countable gmap fin_maps fin_sets strings.

Local Open Scope Z_scope.
#[local] Set Warnings "-clear-no-such-hyp".

(** ** Board (src/board.py) *)

Module Board.

Inductive EdgeState := EMPTY | PLAYER1 | PLAYER2.

#[global] Instance EdgeState_eq_dec : EqDecision EdgeState.
Proof. solve_decision. Defined.

Abbreviation Node := (Z * Z)%type.
Abbreviation Edge := ((Z * Z) * (Z * Z))%type.

(** Python compares tuples lexicographically: [node1 < node2]. *)
Definition node_lt (a b : Node) : bool :=
  (a.1 <? b.1) || ((a.1 =? b.1) && (a.2 <? b.2)).

Record t := mk {
  rows : Z;
  cols : Z;
  edges : gmap Edge EdgeState
}.

Definition set_edges (b : t) (es : gmap Edge EdgeState) : t :=
  {| rows := rows b; cols := cols b; edges := es |}.

(** [range(n)] *)
Definition range (n : Z) : list Z := Z.of_nat <$> seq 0 (Z.to_nat n).

Definition _normalize_edge (node1 node2 : Node) : Edge :=
  if node_lt node1 node2 then (node1, node2) else (node2, node1).

(** The body of the two nested loops of [_initialize_edges], for one
    [(row, col)]. *)
Definition init_cell (rows cols row col : Z)
    (es : gmap Edge EdgeState) : gmap Edge EdgeState :=
  let es :=
    if col <? cols - 1
    then <[_normalize_edge (row, col) (row, col + 1) := EMPTY]> es
    else es in
  if row <? rows - 1
  then <[_normalize_edge (row, col) (row + 1, col) := EMPTY]> es
  else es.

Definition _initialize_edges (rows cols : Z)
    (es : gmap Edge EdgeState) : gmap Edge EdgeState :=
  foldl (λ es row, foldl (λ es col, init_cell rows cols row col es)
                         es (range cols))
        es (range rows).

(** [Board(rows, cols)] *)
Definition new (rows cols : Z) : t :=
  {| rows := rows; cols := cols; edges := _initialize_edges rows cols ∅ |}.

Definition is_valid_move (b : t) (node1 node2 : Node) : bool :=
  let edge := _normalize_edge node1 node2 in
  match edges b !! edge with
  | Some s => bool_decide (s = EMPTY)
  | None => false
  end.

(** [EdgeState.PLAYER1 if player == 1 else EdgeState.PLAYER2] *)
Definition player_state (player : Z) : EdgeState :=
  if player =? 1 then PLAYER1 else PLAYER2.

(** Returns the result and the board after the call. *)
Definition place_bridge (b : t) (node1 node2 : Node) (player : Z) : bool * t :=
  if negb (is_valid_move b node1 node2) then (false, b)
  else
    let edge := _normalize_edge node1 node2 in
    (true, set_edges b (<[edge := player_state player]> (edges b))).

Definition get_edge_state (b : t) (node1 node2 : Node) : EdgeState :=
  let edge := _normalize_edge node1 node2 in
  default EMPTY (edges b !! edge).

Definition directions : list (Z * Z) := [(-1, 0); (1, 0); (0, -1); (0, 1)].

Definition get_neighbors (b : t) (node : Node) : list Node :=
  let '(row, col) := node in
  foldr (λ '(dr, dc) rest,
           let new_row := row + dr in
           let new_col := col + dc in
           if (0 <=? new_row) && (new_row <? rows b)
              && (0 <=? new_col) && (new_col <? cols b)
           then (new_row, new_col) :: rest else rest)
        [] directions.

Definition get_player_edges (b : t) (player : Z) : gset Edge :=
  let player_state := player_state player in
  dom (filter (λ kv, kv.2 = player_state) (edges b)).

(** *** The depth-first search of [_has_path_between_sets]

    [dfs] is a closure over the shared [visited] set, which is threaded
    here.  The recursion is on [fuel]; [None] means the fuel ran out, which
    [has_winning_path_opt_spec] below rules out for the fuel
    [has_winning_path] supplies.  (The interpreter's own recursion limit is not modelled.) *)

Section Search.
Variable b : t.
Variable end_nodes : list Node.
Variable player : Z.

(** The [for neighbor in self.get_neighbors(node)] loop, given the
    recursive call. *)
Fixpoint visit_neighbors (rec : Node → gset Node → option (bool * gset Node))
    (node : Node) (ns : list Node) (visited : gset Node)
    : option (bool * gset Node) :=
  match ns with
  | [] => Some (false, visited)
  | neighbor :: ns' =>
      let edge_state := get_edge_state b node neighbor in
      if bool_decide (edge_state = player_state player) then
        match rec neighbor visited with
        | None => None
        | Some (true, visited') => Some (true, visited')
        | Some (false, visited') => visit_neighbors rec node ns' visited'
        end
      else visit_neighbors rec node ns' visited
  end.

Fixpoint dfs (fuel : nat) (node : Node) (visited : gset Node)
    : option (bool * gset Node) :=
  match fuel with
  | O => None
  | S fuel' =>
      if bool_decide (node ∈ visited) then Some (false, visited)
      else if bool_decide (node ∈ end_nodes) then Some (true, visited)
      else
        visit_neighbors (dfs fuel') node (get_neighbors b node)
                        ({[node]} ∪ visited)
  end.

(** The [for start_node in start_nodes] loop; [visited.clear()] restarts
    every search from the empty set. *)
Fixpoint try_starts (fuel : nat) (start_nodes : list Node) : option bool :=
  match start_nodes with
  | [] => Some false
  | start_node :: rest =>
      match dfs fuel start_node ∅ with
      | None => None
      | Some (true, _) => Some true
      | Some (false, _) => try_starts fuel rest
      end
  end.
End Search.

Definition _has_path_between_sets (fuel : nat) (b : t)
    (start_nodes end_nodes : list Node) (player : Z) : option bool :=
  try_starts b end_nodes player fuel start_nodes.

Definition start_nodes (b : t) (player : Z) : list Node :=
  if player =? 1 then (λ col, (0, col)) <$> range (cols b)
  else (λ row, (row, 0)) <$> range (rows b).

Definition end_nodes (b : t) (player : Z) : list Node :=
  if player =? 1 then (λ col, (rows b - 1, col)) <$> range (cols b)
  else (λ row, (row, cols b - 1)) <$> range (rows b).

(** Every nested call of [dfs] adds a fresh in-bounds node to [visited], so
    the depth never exceeds the number of nodes plus the start node. *)
Definition search_fuel (b : t) : nat :=
  S (S (Z.to_nat (rows b) * Z.to_nat (cols b))).

Definition has_winning_path_opt (b : t) (player : Z) : option bool :=
  _has_path_between_sets (search_fuel b) b
    (start_nodes b player) (end_nodes b player) player.

Definition has_winning_path (b : t) (player : Z) : bool :=
  default false (has_winning_path_opt b player).

End Board.

(** ** Player (src/player.py) *)

Module Player.

Inductive PlayerType := HUMAN | AI.

Record t := mk {
  player_id : Z;
  name : string;
  color : string;
  player_type : PlayerType;
  moves_made : Z
}.

(** [Player(player_id, name, color, player_type)] *)
Definition new (player_id : Z) (name color : string) (ty : PlayerType) : t :=
  {| player_id := player_id; name := name; color := color;
     player_type := ty; moves_made := 0 |}.

Definition set_moves_made (p : t) (n : Z) : t :=
  {| player_id := player_id p; name := name p; color := color p;
     player_type := player_type p; moves_made := n |}.

End Player.

(** ** BridgeItGame (src/game.py) *)

Module Game.

Inductive GameState := SETUP | PLAYING | FINISHED.

#[global] Instance GameState_eq_dec : EqDecision GameState.
Proof. solve_decision. Defined.

Inductive exn := ValueError | KeyError | IndexError.

(** What a call does: return a value or raise. *)
Inductive outcome (A : Type) :=
  | Returns (a : A)
  | Raises (e : exn).
Arguments Returns {A} a.
Arguments Raises {A} e.

Abbreviation Move := ((Z * Z) * (Z * Z) * Z)%type.

(** [Player] objects are created by [add_player], appended to [players] and
    never removed or replaced, so a reference to one is its position in
    [players]: [winner] holds such a position. *)
Record t := mk {
  board : Board.t;
  players : list Player.t;
  current_player_index : Z;
  game_state : GameState;
  winner : option nat;
  move_history : list Move
}.

(** [BridgeItGame(board_rows, board_cols)] *)
Definition new (board_rows board_cols : Z) : t :=
  {| board := Board.new board_rows board_cols;
     players := [];
     current_player_index := 0;
     game_state := SETUP;
     winner := None;
     move_history := [] |}.

(** [l[i]]: the position a Python index denotes, negative indices counting
    from the end; [None] is an [IndexError]. *)
Definition py_position {A} (l : list A) (i : Z) : option nat :=
  let n := Z.of_nat (length l) in
  if (0 <=? i) && (i <? n) then Some (Z.to_nat i)
  else if (- n <=? i) && (i <? 0) then Some (Z.to_nat (n + i))
  else None.

Definition add_player (g : t) (name color : string)
    (player_type : Player.PlayerType) : outcome Player.t * t :=
  if 2 <=? Z.of_nat (length (players g)) then (Raises ValueError, g)
  else
    let player_id := Z.of_nat (length (players g)) + 1 in
    let player := Player.new player_id name color player_type in
    (Returns player,
     {| board := board g; players := players g ++ [player];
        current_player_index := current_player_index g;
        game_state := game_state g; winner := winner g;
        move_history := move_history g |}).

Definition start_game (g : t) : bool * t :=
  if negb (Z.of_nat (length (players g)) =? 2) then (false, g)
  else
    (true,
     {| board := board g; players := players g;
        current_player_index := 0;
        game_state := PLAYING; winner := winner g;
        move_history := move_history g |}).

(** The current player as its position in [players] and the object there. *)
Definition get_current_player (g : t) : outcome (option (nat * Player.t)) :=
  if negb (bool_decide (game_state g = PLAYING))
     || bool_decide (players g = [])
  then Returns None
  else
    match py_position (players g) (current_player_index g) with
    | None => Raises IndexError
    | Some i =>
        match players g !! i with
        | Some p => Returns (Some (i, p))
        | None => Raises IndexError
        end
    end.

Definition make_move (g : t) (node1 node2 : Board.Node) : outcome bool * t :=
  if negb (bool_decide (game_state g = PLAYING)) then (Returns false, g)
  else
    match get_current_player g with
    | Raises e => (Raises e, g)
    | Returns None => (Returns false, g)
    | Returns (Some (i, current_player)) =>
        let pid := Player.player_id current_player in
        let '(placed, board') := Board.place_bridge (board g) node1 node2 pid in
        if placed then
          let history' := move_history g ++ [(node1, node2, pid)] in
          let players' :=
            <[i := Player.set_moves_made current_player
                     (Player.moves_made current_player + 1)]> (players g) in
          if Board.has_winning_path board' pid then
            (Returns true,
             {| board := board'; players := players';
                current_player_index := current_player_index g;
                game_state := FINISHED; winner := Some i;
                move_history := history' |})
          else
            (Returns true,
             {| board := board'; players := players';
                current_player_index := 1 - current_player_index g;
                game_state := game_state g; winner := winner g;
                move_history := history' |})
        else (Returns false, g)
    end.

Definition is_valid_move (g : t) (node1 node2 : Board.Node) : bool :=
  Board.is_valid_move (board g) node1 node2.

(** The loop of [undo_last_move] over [self.players]: the first player
    whose id matches loses one move, then [break]. *)
Fixpoint decrement_moves (ps : list Player.t) (player_id : Z) : list Player.t :=
  match ps with
  | [] => []
  | player :: rest =>
      if Player.player_id player =? player_id
      then Player.set_moves_made player (Player.moves_made player - 1) :: rest
      else player :: decrement_moves rest player_id
  end.

(** [list.pop()] on a non-empty list: the last element and the rest. *)
Definition pop {A} (l : list A) : option (A * list A) :=
  match last l with
  | Some x => Some (x, removelast l)
  | None => None
  end.

Definition undo_last_move (g : t) : outcome bool * t :=
  if bool_decide (move_history g = [])
     || bool_decide (game_state g = FINISHED)
  then (Returns false, g)
  else
    match pop (move_history g) with
    | None => (Returns false, g)
    | Some ((node1, node2, player_id), history') =>
        let edge := Board._normalize_edge node1 node2 in
        match Board.edges (board g) !! edge with
        | None =>
            (* [self.board.edges[edge]] raises after the pop *)
            (Raises KeyError,
             {| board := board g; players := players g;
                current_player_index := current_player_index g;
                game_state := game_state g; winner := winner g;
                move_history := history' |})
        | Some _ =>
            (Returns true,
             {| board := Board.set_edges (board g)
                           (<[edge := Board.EMPTY]> (Board.edges (board g)));
                players := decrement_moves (players g) player_id;
                current_player_index := 1 - current_player_index g;
                game_state := game_state g; winner := winner g;
                move_history := history' |})
        end
    end.

Definition reset_game (g : t) : t :=
  {| board := Board.new (Board.rows (board g)) (Board.cols (board g));
     players := (λ p, Player.set_moves_made p 0) <$> players g;
     current_player_index := 0;
     game_state :=
       if negb (Z.of_nat (length (players g)) =? 2) then SETUP else PLAYING;
     winner := None;
     move_history := [] |}.

(** *** Runs of the engine

    The states a caller can bring a game into through the public
    operations, from any constructor call. *)
Inductive reachable : t → Prop :=
  | reach_new board_rows board_cols : reachable (new board_rows board_cols)
  | reach_add_player g name color ty :
      reachable g → reachable (add_player g name color ty).2
  | reach_start_game g : reachable g → reachable (start_game g).2
  | reach_make_move g node1 node2 :
      reachable g → reachable (make_move g node1 node2).2
  | reach_undo_last_move g : reachable g → reachable (undo_last_move g).2
  | reach_reset_game g : reachable g → reachable (reset_game g).

End Game.

(** ** Vocabulary of the statements *)

(** *** The grid *)

Definition in_bounds (b : Board.t) (v : Board.Node) : Prop :=
  0 ≤ v.1 < Board.rows b ∧ 0 ≤ v.2 < Board.cols b.

(** Two nodes that differ by one in exactly one coordinate. *)
Definition adjacent (u v : Board.Node) : Prop :=
  (v.1 = u.1 ∧ (v.2 = u.2 + 1 ∨ v.2 = u.2 - 1))
  ∨ (v.2 = u.2 ∧ (v.1 = u.1 + 1 ∨ v.1 = u.1 - 1)).

(** The keys [_initialize_edges] writes for one [(row, col)], in order. *)
Definition cell_edges (rows cols row col : Z) : list Board.Edge :=
  (if col <? cols - 1 then [((row, col), (row, col + 1))] else [])
  ++ (if row <? rows - 1 then [((row, col), (row + 1, col))] else []).

Definition initial_edges (rows cols : Z) : list Board.Edge :=
  row ← Board.range rows; col ← Board.range cols;
  cell_edges rows cols row col.

Definition insert_empty (es : gmap Board.Edge Board.EdgeState)
    (e : Board.Edge) : gmap Board.Edge Board.EdgeState :=
  <[e := Board.EMPTY]> es.

(** [below k n] of the indices [0 .. n-1] are below [k]. *)
Definition below (k : Z) (n : nat) : nat :=
  Z.to_nat (Z.min (Z.of_nat n) (Z.max k 0)).

(** A board whose dictionary has the keys its constructor gave it:
    [place_bridge] and the undo only overwrite values. *)
Definition on_grid (b : Board.t) : Prop :=
  dom (Board.edges b)
  = dom (Board.edges (Board.new (Board.rows b) (Board.cols b))).

(** *** Paths *)

(** One step of a player's path: from [u] to a grid neighbour [v] over an
    edge that carries the player's marker. *)
Definition owned_step (b : Board.t) (player : Z) (u v : Board.Node) : Prop :=
  adjacent u v ∧ in_bounds b v
  ∧ Board.edges b !! Board._normalize_edge u v
    = Some (Board.player_state player).

(** What a search that answers [False] leaves in [visited]: every node it
    added is no target and has all its successors in the set. *)
Definition closed_over (b : Board.t) (ends : list Board.Node) (player : Z)
    (visited visited' : gset Board.Node) : Prop :=
  visited ⊆ visited'
  ∧ ∀ u, u ∈ visited' → u ∉ visited →
         (u ∉ ends) ∧ (∀ w, owned_step b player u w → w ∈ visited').

(** The nodes of the grid. *)
Definition node_list (b : Board.t) : list Board.Node :=
  row ← Board.range (Board.rows b); col ← Board.range (Board.cols b);
  [(row, col)].

Definition node_set (b : Board.t) : gset Board.Node :=
  list_to_set (node_list b).

(** *** Engine states *)

(** The dictionary key a recorded move wrote. *)
Definition move_edge (m : Game.Move) : Board.Edge :=
  Board._normalize_edge m.1.1 m.1.2.

(** The sum of the players' move counters. *)
Definition total_moves (ps : list Player.t) : Z :=
  foldr (λ p acc, Player.moves_made p + acc) 0 ps.

(** What holds in every state a caller can reach. *)
Record invariant (g : Game.t) : Prop := {
  inv_ids : ∀ i p, Game.players g !! i = Some p →
                   Player.player_id p = Z.of_nat i + 1;
  inv_at_most_two : (length (Game.players g) ≤ 2)%nat;
  inv_index :
    Game.current_player_index g = 0 ∨ Game.current_player_index g = 1;
  inv_started :
    Game.game_state g ≠ Game.SETUP → length (Game.players g) = 2%nat;
  inv_setup : Game.game_state g = Game.SETUP → Game.move_history g = [];
  inv_winner :
    ∀ i, Game.winner g = Some i → (i < length (Game.players g))%nat;
  inv_grid : on_grid (Game.board g);
  inv_nodup : NoDup (move_edge <$> Game.move_history g);
  inv_history : ∀ m, m ∈ Game.move_history g →
      (m.2 = 1 ∨ m.2 = 2)
      ∧ Board.edges (Game.board g) !! move_edge m
        = Some (Board.player_state m.2);
  inv_owned : ∀ e s,
      Board.edges (Game.board g) !! e = Some s → s ≠ Board.EMPTY →
      e ∈ move_edge <$> Game.move_history g;
  inv_moves :
    total_moves (Game.players g) = Z.of_nat (length (Game.move_history g))
}.

(** The history is as long as the number of owned edges, and as the sum of
    the move counters. *)
Definition history_balanced (g : Game.t) : Prop :=
  length (Game.move_history g)
  = (size (Board.get_player_edges (Game.board g) 1)
     + size (Board.get_player_edges (Game.board g) 2))%nat
  ∧ total_moves (Game.players g) = Z.of_nat (length (Game.move_history g)).

(** The id of the player whose turn it is, if any. *)
Definition current_player_id (g : Game.t) : option Z :=
  match Game.get_current_player g with
  | Game.Returns (Some (_, p)) => Some (Player.player_id p)
  | _ => None
  end.

(** The turn index after [n] moves that alternate from index 0. *)
Definition turn_of (n : nat) : Z := if Nat.even n then 0 else 1.

(** Turn index and history agree: the [k]-th recorded move is by the player
    at index [turn_of k], and the turn is [turn_of] the length of the
    history. *)
Definition in_step (g : Game.t) : Prop :=
  Game.game_state g ≠ Game.FINISHED →
  Game.current_player_index g = turn_of (length (Game.move_history g))
  ∧ ∀ k m, Game.move_history g !! k = Some m → m.2 = turn_of k + 1.

(** Runs in which [start_game] is not called again once moves are on the
    board: from a reachable state with an empty history and player 1 to
    move, through [make_move], [undo_last_move], [reset_game] and
    [add_player]. *)
Inductive played : Game.t → Prop :=
  | played_begin g :
      Game.reachable g → Game.move_history g = [] →
      Game.current_player_index g = 0 → played g
  | played_add_player g name color ty :
      played g → played (Game.add_player g name color ty).2
  | played_make_move g node1 node2 :
      played g → played (Game.make_move g node1 node2).2
  | played_undo_last_move g :
      played g → played (Game.undo_last_move g).2
  | played_reset_game g : played g → played (Game.reset_game g).

(** *** A game on a 3x3 board *)

(** [BridgeItGame(3, 3)] with its two players, started, as [play_game]
    sets it up. *)
Definition game_3x3 : Game.t :=
  (Game.start_game
     (Game.add_player
        (Game.add_player (Game.new 3 3) "Player 1" "Red" Player.HUMAN).2
        "Player 2" "Blue" Player.HUMAN).2).2.

(** Player 1 has bridged (0,0)-(1,0). *)
Definition game_3x3_one_move : Game.t :=
  (Game.make_move game_3x3 (0, 0) (1, 0)).2.

(** Player 2 has then bridged (0,1)-(0,2). *)
Definition game_3x3_two_moves : Game.t :=
  (Game.make_move game_3x3_one_move (0, 1) (0, 2)).2.

(** Player 1 then bridges (1,0)-(2,0) and has joined top and bottom. *)
Definition game_3x3_won : Game.t :=
  (Game.make_move game_3x3_two_moves (1, 0) (2, 0)).2.

(** Reduce record projections only, leaving the games themselves folded. *)
Ltac fields :=
  cbn [fst snd Game.board Game.players Game.current_player_index
       Game.game_state Game.winner Game.move_history
       Board.set_edges Board.rows Board.cols Board.edges].
Tactic Notation "fields" "in" hyp(H) :=
  cbn [fst snd Game.board Game.players Game.current_player_index
       Game.game_state Game.winner Game.move_history
       Board.set_edges Board.rows Board.cols Board.edges] in H.

(** ** More of the sources *)

(** *** src/utils.py *)

Module Utils.

Definition are_adjacent_nodes (node1 node2 : Board.Node) : bool :=
  let '(r1, c1) := node1 in
  let '(r2, c2) := node2 in
  if (r1 =? r2) && (Z.abs (c1 - c2) =? 1) then true
  else if (c1 =? c2) && (Z.abs (r1 - r2) =? 1) then true
  else false.

Definition validate_board_size (rows cols : Z) : bool :=
  (3 <=? rows) && (rows <=? 20) && (3 <=? cols) && (cols <=? 20).

End Utils.

(** *** The remaining queries of src/game.py *)

(** [state.value] *)
Definition value (s : Board.EdgeState) : Z :=
  match s with Board.EMPTY => 0 | Board.PLAYER1 => 1 | Board.PLAYER2 => 2 end.

(** [self.board.edges.items()].  A Python dictionary iterates in insertion
    order and an assignment to an existing key keeps the key's place, so the
    entries of a board come in the order in which [_initialize_edges] wrote
    the keys; the [gmap] supplies the values. *)
Definition items (b : Board.t) : list (Board.Edge * Board.EdgeState) :=
  omap (λ e, (λ s, (e, s)) <$> Board.edges b !! e)
       (initial_edges (Board.rows b) (Board.cols b)).

Definition get_available_moves (g : Game.t) : list Board.Edge :=
  foldl (λ moves '(edge, state),
           if value state =? 0 then moves ++ [edge] else moves)
        [] (items (Game.board g)).

(** *** More vocabulary *)

(** The recorded moves of one player. *)
Definition moves_by (player_id : Z) (history : list Game.Move)
    : list Game.Move :=
  filter (λ m, m.2 = player_id) history.

(** The counters and the winner agree with the history and the board. *)
Record bookkeeping (g : Game.t) : Prop := {
  book_counter : ∀ i p, Game.players g !! i = Some p →
      Player.moves_made p
      = Z.of_nat (length (moves_by (Player.player_id p) (Game.move_history g)));
  book_finished : Game.game_state g = Game.FINISHED →
      ∃ i p h m,
        Game.winner g = Some i ∧ Game.players g !! i = Some p
        ∧ Game.move_history g = h ++ [m] ∧ m.2 = Player.player_id p
        ∧ Board.has_winning_path (Game.board g) (Player.player_id p) = true
}.

(** Nobody has a winning path. *)
Definition undecided (b : Board.t) : Prop :=
  Board.has_winning_path b 1 = false ∧ Board.has_winning_path b 2 = false.

(** [undo_last_move] called [n] times. *)
Fixpoint undo_times (n : nat) (g : Game.t) : Game.t :=
  match n with
  | O => g
  | S n' => undo_times n' (Game.undo_last_move g).2
  end.

(** ** Facts about the board *)

Section BoardFacts.
Import Board.

Lemma node_lt_spec (a b : Node) :
  node_lt a b = true ↔ a.1 < b.1 ∨ (a.1 = b.1 ∧ a.2 < b.2).
Proof. unfold node_lt. destruct a, b; simpl. lia. Qed.

Lemma node_lt_false (a b : Node) :
  node_lt a b = false ↔ b.1 < a.1 ∨ (a.1 = b.1 ∧ b.2 ≤ a.2).
Proof.
  rewrite <- Bool.not_true_iff_false, node_lt_spec.
  destruct a, b; simpl. lia.
Qed.

(** Normalisation forgets the order of the two nodes. *)
Lemma _normalize_edge_comm (a b : Node) :
  _normalize_edge a b = _normalize_edge b a.
Proof.
  unfold _normalize_edge.
  destruct (node_lt a b) eqn:Hab, (node_lt b a) eqn:Hba; try reflexivity.
  - apply node_lt_spec in Hab, Hba. destruct a, b; simpl in *. lia.
  - apply node_lt_false in Hab, Hba. destruct a as [a1 a2], b as [b1 b2].
    simpl in *. assert (a1 = b1 ∧ a2 = b2) as [-> ->] by lia. reflexivity.
Qed.

Lemma player_state_not_empty (player : Z) : player_state player ≠ EMPTY.
Proof. unfold player_state. by destruct (player =? 1). Qed.

Lemma is_valid_move_spec (b : t) (n1 n2 : Node) :
  is_valid_move b n1 n2 = true ↔
  edges b !! _normalize_edge n1 n2 = Some EMPTY.
Proof.
  unfold is_valid_move.
  destruct (edges b !! _normalize_edge n1 n2) as [s|]; [|done].
  rewrite bool_decide_eq_true. split; congruence.
Qed.

Lemma place_bridge_true (b : t) (n1 n2 : Node) (player : Z) :
  edges b !! _normalize_edge n1 n2 = Some EMPTY →
  place_bridge b n1 n2 player =
    (true, set_edges b (<[_normalize_edge n1 n2 := player_state player]>
                          (edges b))).
Proof.
  intros H. unfold place_bridge.
  apply is_valid_move_spec in H. by rewrite H.
Qed.

Lemma place_bridge_false (b : t) (n1 n2 : Node) (player : Z) :
  edges b !! _normalize_edge n1 n2 ≠ Some EMPTY →
  place_bridge b n1 n2 player = (false, b).
Proof.
  intros H. unfold place_bridge.
  destruct (is_valid_move b n1 n2) eqn:Hv; [|done].
  by apply is_valid_move_spec in Hv.
Qed.

Lemma place_bridge_cases (b : t) (n1 n2 : Node) (player : Z) :
  (edges b !! _normalize_edge n1 n2 = Some EMPTY ∧
   place_bridge b n1 n2 player =
     (true, set_edges b (<[_normalize_edge n1 n2 := player_state player]>
                           (edges b))))
  ∨ (edges b !! _normalize_edge n1 n2 ≠ Some EMPTY ∧
     place_bridge b n1 n2 player = (false, b)).
Proof.
  destruct (decide (edges b !! _normalize_edge n1 n2 = Some EMPTY)) as [H|H].
  - left. split; [done|]. by apply place_bridge_true.
  - right. split; [done|]. by apply place_bridge_false.
Qed.

Lemma get_player_edges_spec (b : t) (player : Z) (e : Edge) :
  e ∈ get_player_edges b player ↔ edges b !! e = Some (player_state player).
Proof.
  unfold get_player_edges. rewrite elem_of_dom. split.
  - intros [s Hs]. apply map_lookup_filter_Some in Hs as [Hs Heq].
    simpl in Heq. by subst.
  - intros H. exists (player_state player).
    by apply map_lookup_filter_Some.
Qed.

End BoardFacts.

(** ** The edges of a fresh board *)

Section InitialEdges.
Import Board.

Lemma _normalize_edge_right (row col : Z) :
  _normalize_edge (row, col) (row, col + 1) = ((row, col), (row, col + 1)).
Proof.
  unfold _normalize_edge.
  replace (node_lt (row, col) (row, col + 1)) with true; [done|].
  symmetry. apply node_lt_spec. simpl. lia.
Qed.

Lemma _normalize_edge_down (row col : Z) :
  _normalize_edge (row, col) (row + 1, col) = ((row, col), (row + 1, col)).
Proof.
  unfold _normalize_edge.
  replace (node_lt (row, col) (row + 1, col)) with true; [done|].
  symmetry. apply node_lt_spec. simpl. lia.
Qed.

Lemma init_cell_foldl (rows cols row col : Z) (es : gmap Edge EdgeState) :
  init_cell rows cols row col es
  = foldl insert_empty es (cell_edges rows cols row col).
Proof.
  unfold init_cell, cell_edges.
  rewrite _normalize_edge_right, _normalize_edge_down.
  destruct (col <? cols - 1), (row <? rows - 1); reflexivity.
Qed.

Lemma foldl_bind {A B C} (f : A → C → A) (g : B → list C) (l : list B) (a : A) :
  foldl f a (l ≫= g) = foldl (λ a x, foldl f a (g x)) a l.
Proof.
  revert a. induction l as [|x l IH]; intros a; [done|].
  rewrite bind_cons, foldl_app. simpl. by rewrite IH.
Qed.

Lemma foldl_ext_all {A B} (f g : A → B → A) (l : list B) (a : A) :
  (∀ a x, f a x = g a x) → foldl f a l = foldl g a l.
Proof.
  intros Hfg. revert a. induction l as [|x l IH]; intros a; [done|].
  simpl. by rewrite Hfg, IH.
Qed.

Lemma _initialize_edges_foldl (rows cols : Z) (es : gmap Edge EdgeState) :
  _initialize_edges rows cols es
  = foldl insert_empty es (initial_edges rows cols).
Proof.
  unfold _initialize_edges, initial_edges.
  rewrite foldl_bind. apply foldl_ext_all.
  intros es' row. rewrite foldl_bind. apply foldl_ext_all.
  intros es'' col. apply init_cell_foldl.
Qed.

Lemma lookup_foldl_insert_empty (l : list Edge) (es : gmap Edge EdgeState) e :
  foldl insert_empty es l !! e
  = if decide (e ∈ l) then Some EMPTY else es !! e.
Proof.
  revert es. induction l as [|x l IH]; intros es; simpl.
  - destruct (decide (e ∈ [])) as [H|_]; [|done]. by apply elem_of_nil in H.
  - rewrite IH. unfold insert_empty at 1.
    destruct (decide (e ∈ l)) as [Hl|Hl], (decide (e ∈ x :: l)) as [Hx|Hx];
      try done.
    + exfalso. apply Hx. by right.
    + apply elem_of_cons in Hx as [->|?]; [|done]. by rewrite lookup_insert_eq.
    + rewrite lookup_insert_ne; [done|]. intros ->. apply Hx. by left.
Qed.

Lemma lookup_new (rows cols : Z) (e : Edge) :
  edges (new rows cols) !! e
  = if decide (e ∈ initial_edges rows cols) then Some EMPTY else None.
Proof.
  simpl. rewrite _initialize_edges_foldl, lookup_foldl_insert_empty.
  by rewrite lookup_empty.
Qed.

Lemma dom_new (rows cols : Z) :
  dom (edges (new rows cols)) = list_to_set (initial_edges rows cols).
Proof.
  apply set_eq. intros e.
  rewrite elem_of_dom, lookup_new, elem_of_list_to_set.
  destruct (decide (e ∈ initial_edges rows cols)); split;
    first [done | by intros []].
Qed.

Lemma new_all_empty (rows cols : Z) (e : Edge) (s : EdgeState) :
  edges (new rows cols) !! e = Some s → s = EMPTY.
Proof. rewrite lookup_new. case_decide; congruence. Qed.

Lemma elem_of_range (n i : Z) : i ∈ range n ↔ 0 ≤ i < n.
Proof.
  unfold range. rewrite list_elem_of_fmap. split.
  - intros (k & -> & Hk). apply elem_of_seq in Hk. lia.
  - intros Hi. exists (Z.to_nat i). split; [lia|]. apply elem_of_seq. lia.
Qed.

Lemma NoDup_range (n : Z) : NoDup (range n).
Proof.
  unfold range. apply NoDup_fmap_2; [|apply NoDup_seq].
  intros ???. lia.
Qed.

Lemma elem_of_cell_edges (rows cols row col : Z) (e : Edge) :
  e ∈ cell_edges rows cols row col ↔
    (col < cols - 1 ∧ e = ((row, col), (row, col + 1)))
    ∨ (row < rows - 1 ∧ e = ((row, col), (row + 1, col))).
Proof.
  unfold cell_edges. rewrite elem_of_app.
  destruct (Z.ltb_spec col (cols - 1)), (Z.ltb_spec row (rows - 1));
    rewrite ?list_elem_of_singleton, ?elem_of_nil; intuition lia.
Qed.

Lemma elem_of_initial_edges (rows cols : Z) (e : Edge) :
  e ∈ initial_edges rows cols ↔
    ∃ row col, 0 ≤ row < rows ∧ 0 ≤ col < cols
      ∧ ((col < cols - 1 ∧ e = ((row, col), (row, col + 1)))
         ∨ (row < rows - 1 ∧ e = ((row, col), (row + 1, col)))).
Proof.
  unfold initial_edges. rewrite list_elem_of_bind. split.
  - intros (row & He & Hrow). apply list_elem_of_bind in He as (col & He & Hcol).
    apply elem_of_range in Hrow, Hcol. apply elem_of_cell_edges in He.
    by exists row, col.
  - intros (row & col & Hrow & Hcol & He). exists row.
    split; [|by apply elem_of_range].
    apply list_elem_of_bind. exists col.
    split; [|by apply elem_of_range]. by apply elem_of_cell_edges.
Qed.

Lemma NoDup_cell_edges (rows cols row col : Z) :
  NoDup (cell_edges rows cols row col).
Proof.
  unfold cell_edges.
  destruct (col <? cols - 1), (row <? rows - 1); simpl.
  - apply NoDup_cons. split; [|apply NoDup_singleton].
    rewrite list_elem_of_singleton. intros [= ? ?]. lia.
  - apply NoDup_singleton.
  - apply NoDup_singleton.
  - apply NoDup_nil_2.
Qed.

Lemma NoDup_initial_edges (rows cols : Z) : NoDup (initial_edges rows cols).
Proof.
  unfold initial_edges. apply NoDup_bind; [| |apply NoDup_range].
  - intros r1 r2 e _ _ H1 H2.
    apply list_elem_of_bind in H1 as (c1 & H1 & _).
    apply list_elem_of_bind in H2 as (c2 & H2 & _).
    apply elem_of_cell_edges in H1, H2.
    destruct H1 as [[_ ->]|[_ ->]], H2 as [[_ [=]]|[_ [=]]]; lia.
  - intros row _. apply NoDup_bind; [| |apply NoDup_range].
    + intros c1 c2 e _ _ H1 H2.
      apply elem_of_cell_edges in H1, H2.
      destruct H1 as [[_ ->]|[_ ->]], H2 as [[_ [=]]|[_ [=]]]; lia.
    + intros col _. apply NoDup_cell_edges.
Qed.

Lemma size_new (rows cols : Z) :
  size (edges (new rows cols)) = length (initial_edges rows cols).
Proof.
  rewrite <- size_dom, dom_new.
  apply size_list_to_set, NoDup_initial_edges.
Qed.

Lemma below_S (k : Z) (n : nat) :
  below k (S n) = (below k n + (if (Z.of_nat n <? k)%Z then 1 else 0))%nat.
Proof. unfold below. destruct (Z.ltb_spec (Z.of_nat n) k); lia. Qed.

Lemma length_bind_sum {A B} (f : A → list B) (l : list A) :
  length (l ≫= f) = sum_list_with (λ x, length (f x)) l.
Proof.
  induction l as [|x l IH]; [done|].
  rewrite bind_cons, length_app, IH. done.
Qed.

Lemma sum_list_with_ext_in {A} (f g : A → nat) (l : list A) :
  (∀ x, x ∈ l → f x = g x) → sum_list_with f l = sum_list_with g l.
Proof.
  induction l as [|x l IH]; intros H; [done|]. simpl.
  rewrite (H x) by left. rewrite IH; [done|].
  intros y Hy. apply H. by right.
Qed.

Lemma sum_below (a b : nat) (k : Z) (n : nat) :
  sum_list_with (λ i, a * (if (i <? k)%Z then 1 else 0) + b)%nat
                (Z.of_nat <$> seq 0 n)
  = (a * below k n + n * b)%nat.
Proof.
  induction n as [|n IH]; [unfold below; simpl; lia|].
  rewrite seq_S, fmap_app, sum_list_with_app, IH, below_S. simpl.
  destruct (Z.of_nat n <? k); lia.
Qed.

Lemma length_cell_edges (rows cols row col : Z) :
  length (cell_edges rows cols row col)
  = (1 * (if (col <? cols - 1)%Z then 1 else 0)
     + (if (row <? rows - 1)%Z then 1 else 0))%nat.
Proof.
  unfold cell_edges. rewrite length_app.
  destruct (col <? cols - 1), (row <? rows - 1); reflexivity.
Qed.

Lemma length_initial_edges (rows cols : Z) :
  length (initial_edges rows cols)
  = (Z.to_nat rows * below (cols - 1) (Z.to_nat cols)
     + Z.to_nat cols * below (rows - 1) (Z.to_nat rows))%nat.
Proof.
  unfold initial_edges. rewrite length_bind_sum.
  rewrite (sum_list_with_ext_in _
    (λ row, Z.to_nat cols * (if (row <? rows - 1)%Z then 1 else 0)
            + below (cols - 1) (Z.to_nat cols))%nat).
  - unfold range. rewrite sum_below. lia.
  - intros row _. rewrite length_bind_sum.
    rewrite (sum_list_with_ext_in _ _ _
               (λ col _, length_cell_edges rows cols row col)).
    unfold range. rewrite sum_below.
    destruct (row <? rows - 1); lia.
Qed.

Lemma edge_count (rows cols : Z) :
  1 ≤ rows → 1 ≤ cols →
  Z.of_nat (size (edges (new rows cols)))
  = rows * (cols - 1) + cols * (rows - 1).
Proof.
  intros Hr Hc. rewrite size_new, length_initial_edges.
  unfold below.
  replace (Z.min (Z.of_nat (Z.to_nat cols)) (Z.max (cols - 1) 0))
    with (cols - 1) by lia.
  replace (Z.min (Z.of_nat (Z.to_nat rows)) (Z.max (rows - 1) 0))
    with (rows - 1) by lia.
  rewrite Nat2Z.inj_add, !Nat2Z.inj_mul, !Z2Nat.id by lia. reflexivity.
Qed.

(** *** Boards that keep the keys of their constructor *)

Lemma on_grid_new (rows cols : Z) : on_grid (new rows cols).
Proof. reflexivity. Qed.

Lemma on_grid_overwrite (b : t) (e : Edge) (s s0 : EdgeState) :
  on_grid b → edges b !! e = Some s0 →
  on_grid (set_edges b (<[e := s]> (edges b))).
Proof.
  unfold on_grid. simpl. intros Hgrid He.
  rewrite dom_insert_L, <- Hgrid.
  assert (e ∈ dom (edges b)) by (apply elem_of_dom; eauto).
  set_solver.
Qed.

Lemma _normalize_edge_endpoints (u v x y : Node) :
  _normalize_edge u v = (x, y) → (u = x ∧ v = y) ∨ (u = y ∧ v = x).
Proof.
  unfold _normalize_edge. destruct (node_lt u v); intros [= <- <-]; auto.
Qed.

Lemma adjacent_sym (u v : Node) : adjacent u v → adjacent v u.
Proof. unfold adjacent. lia. Qed.

(** A key of the constructor joins two adjacent nodes of the grid. *)
Lemma on_grid_key (b : t) (u v : Node) :
  on_grid b → is_Some (edges b !! _normalize_edge u v) →
  adjacent u v ∧ in_bounds b u ∧ in_bounds b v.
Proof.
  intros Hgrid He. apply elem_of_dom in He.
  rewrite Hgrid, dom_new, elem_of_list_to_set in He.
  apply elem_of_initial_edges in He as (row & col & Hrow & Hcol & He).
  assert (Hxy : ∃ x y, _normalize_edge u v = (x, y)
                       ∧ adjacent x y ∧ in_bounds b x ∧ in_bounds b y).
  { destruct He as [[Hc ->]|[Hr ->]]; eexists _, _; (split; [done|]);
      unfold adjacent, in_bounds; simpl; lia. }
  destruct Hxy as (x & y & Hn & Hadj & Hx & Hy).
  apply _normalize_edge_endpoints in Hn as [[-> ->]|[-> ->]]; [done|].
  split; [by apply adjacent_sym|done].
Qed.

End InitialEdges.

(** C7: a board built for [rows], [cols] of at least 3 holds exactly
    [rows * (cols - 1) + cols * (rows - 1)] edges, namely every horizontal and
    every vertical pair of adjacent nodes, and each of them is [EMPTY]. *)
Theorem new_board_edge_count (rows cols : Z) :
  3 ≤ rows → 3 ≤ cols →
  Z.of_nat (size (Board.edges (Board.new rows cols)))
  = rows * (cols - 1) + cols * (rows - 1)
  ∧ (∀ e, e ∈ dom (Board.edges (Board.new rows cols)) ↔
       ∃ row col, 0 ≤ row < rows ∧ 0 ≤ col < cols
         ∧ ((col < cols - 1 ∧ e = ((row, col), (row, col + 1)))
            ∨ (row < rows - 1 ∧ e = ((row, col), (row + 1, col)))))
  ∧ (∀ e s, Board.edges (Board.new rows cols) !! e = Some s → s = Board.EMPTY).
Proof.
  intros Hr Hc. split; [apply edge_count; lia|]. split.
  - intros e. rewrite dom_new, elem_of_list_to_set.
    apply elem_of_initial_edges.
  - apply new_all_empty.
Qed.

Lemma new_board_edge_count_witness :
  3 ≤ 3 ∧ 3 ≤ 4
  ∧ Z.of_nat (size (Board.edges (Board.new 3 4))) = 3 * (4 - 1) + 4 * (3 - 1).
Proof.
  split; [lia|]. split; [lia|].
  destruct (new_board_edge_count 3 4) as [H _]; [lia|lia|]. exact H.
Defined.

(** C8: [place_bridge] succeeds exactly on an existing empty edge, then
    stores the player's marker in that slot and nowhere else; a failed call
    leaves the board as it was; after a success every further placement
    on the same pair, in either order and by any player, fails; and on a
    board with the keys of its constructor a pair that is not adjacent or not
    in bounds is refused. *)
Theorem place_bridge_iff_valid (b : Board.t) (n1 n2 : Board.Node) (player : Z) :
  let e := Board._normalize_edge n1 n2 in
  let r := Board.place_bridge b n1 n2 player in
  (on_grid b →
   ¬ (adjacent n1 n2 ∧ in_bounds b n1 ∧ in_bounds b n2) →
   r = (false, b))
  ∧ (r.1 = true ↔ Board.edges b !! e = Some Board.EMPTY)
  ∧ (r.1 = Board.is_valid_move b n1 n2)
  ∧ (r.1 = true →
       Board.edges r.2 !! e = Some (Board.player_state player)
       ∧ (∀ e', e' ≠ e → Board.edges r.2 !! e' = Board.edges b !! e')
       ∧ Board.rows r.2 = Board.rows b ∧ Board.cols r.2 = Board.cols b)
  ∧ (r.1 = false → r.2 = b)
  ∧ (r.1 = true → ∀ player',
       Board.place_bridge r.2 n1 n2 player' = (false, r.2)
       ∧ Board.place_bridge r.2 n2 n1 player' = (false, r.2)).
Proof.
  intros e r. subst e r. split.
  { intros Hgrid Hout. apply place_bridge_false. intros He.
    apply Hout. apply on_grid_key; [done|]. rewrite He. eauto. }
  destruct (place_bridge_cases b n1 n2 player) as [[He ->]|[He ->]]; simpl.
  - split; [done|]. split; [symmetry; by apply is_valid_move_spec|].
    split; [|split; [done|]].
    + intros _. split; [by rewrite lookup_insert_eq|].
      split; [|done]. intros e' Hne. by rewrite lookup_insert_ne.
    + intros _ player'.
      assert (Hocc : ∀ m1 m2,
                Board._normalize_edge m1 m2 = Board._normalize_edge n1 n2 →
                Board.place_bridge
                  (Board.set_edges b
                     (<[Board._normalize_edge n1 n2 :=
                          Board.player_state player]> (Board.edges b)))
                  m1 m2 player'
                = (false,
                   Board.set_edges b
                     (<[Board._normalize_edge n1 n2 :=
                          Board.player_state player]> (Board.edges b)))).
      { intros m1 m2 Hm. apply place_bridge_false. simpl.
        rewrite Hm, lookup_insert_eq. intros [= Hp].
        by apply player_state_not_empty in Hp. }
      split; apply Hocc; [done|apply _normalize_edge_comm].
  - split; [split; [done|by intros ?]|].
    split; [|done].
    symmetry. apply Bool.not_true_iff_false. by rewrite is_valid_move_spec.
Qed.

Lemma place_bridge_iff_valid_witness :
  on_grid (Board.new 3 3)
  ∧ ¬ (adjacent (0, 0) (2, 2) ∧ in_bounds (Board.new 3 3) (0, 0)
       ∧ in_bounds (Board.new 3 3) (2, 2))
  ∧ Board.place_bridge (Board.new 3 3) (0, 0) (2, 2) 1
    = (false, Board.new 3 3).
Proof.
  assert (H1 : on_grid (Board.new 3 3)) by reflexivity.
  assert (H2 : ¬ (adjacent (0, 0) (2, 2) ∧ in_bounds (Board.new 3 3) (0, 0)
                  ∧ in_bounds (Board.new 3 3) (2, 2))).
  { unfold adjacent. simpl. lia. }
  split; [exact H1|]. split; [exact H2|].
  destruct (place_bridge_iff_valid (Board.new 3 3) (0, 0) (2, 2) 1)
    as (H & _).
  exact (H H1 H2).
Defined.

(** C10: any player id other than 1 is handled as player 2, both when a
    bridge is placed and when a player's edges are collected; no id is
    rejected. *)
Theorem player_ids_other_than_1_are_player2 (b : Board.t) (player : Z) :
  player ≠ 1 →
  Board.player_state player = Board.PLAYER2
  ∧ Board.get_player_edges b player = Board.get_player_edges b 2
  ∧ (∀ n1 n2,
       Board.edges b !! Board._normalize_edge n1 n2 = Some Board.EMPTY →
       Board.place_bridge b n1 n2 player
       = (true, Board.set_edges b
                  (<[Board._normalize_edge n1 n2 := Board.PLAYER2]>
                     (Board.edges b))))
  ∧ (∀ n1 n2, Board.place_bridge b n1 n2 player = Board.place_bridge b n1 n2 2).
Proof.
  intros Hne.
  assert (Hst : Board.player_state player = Board.PLAYER2).
  { unfold Board.player_state. destruct (Z.eqb_spec player 1); done. }
  split; [done|]. split; [|split].
  - unfold Board.get_player_edges. by rewrite Hst.
  - intros n1 n2 He. rewrite (place_bridge_true _ _ _ _ He). by rewrite Hst.
  - intros n1 n2. unfold Board.place_bridge. by rewrite Hst.
Qed.

Lemma player_ids_other_than_1_witness :
  0 ≠ 1 ∧ Board.player_state 0 = Board.PLAYER2
  ∧ Board.get_player_edges (Board.new 3 3) 0
    = Board.get_player_edges (Board.new 3 3) 2.
Proof.
  split; [lia|].
  destruct (player_ids_other_than_1_are_player2 (Board.new 3 3) 0) as (H1 & H2 & _);
    [lia|].
  split; [exact H1|exact H2].
Defined.

(** ** The connectivity check *)

Section Connectivity.
Import Board.

Lemma elem_of_neighbors_along (b : t) (row col : Z) (ds : list (Z * Z)) (v : Node) :
  v ∈ foldr (λ '(dr, dc) rest,
           let new_row := row + dr in
           let new_col := col + dc in
           if (0 <=? new_row) && (new_row <? rows b)
              && (0 <=? new_col) && (new_col <? cols b)
           then (new_row, new_col) :: rest else rest) [] ds
  ↔ ∃ d, d ∈ ds ∧ v = (row + d.1, col + d.2) ∧ in_bounds b v.
Proof.
  induction ds as [|[dr dc] ds IH]; simpl.
  - rewrite elem_of_nil. split; [done|]. intros (d & Hd & _). by apply elem_of_nil in Hd.
  - destruct ((0 <=? row + dr) && (row + dr <? rows b)
              && (0 <=? col + dc) && (col + dc <? cols b)) eqn:Hc.
    + rewrite elem_of_cons, IH. split.
      * intros [->|(d & Hd & Hv)].
        -- exists (dr, dc). split; [left|]. split; [done|].
           unfold in_bounds; simpl.
           rewrite !andb_true_iff, !Z.leb_le, !Z.ltb_lt in Hc. lia.
        -- exists d. split; [by right|done].
      * intros (d & Hd & Hv). apply elem_of_cons in Hd as [->|Hd].
        -- left. by destruct Hv.
        -- right. by exists d.
    + rewrite IH. split.
      * intros (d & Hd & Hv). exists d. split; [by right|done].
      * intros (d & Hd & -> & Hb). apply elem_of_cons in Hd as [->|Hd].
        -- exfalso. unfold in_bounds in Hb. simpl in Hb.
           apply Bool.not_true_iff_false in Hc. apply Hc.
           rewrite !andb_true_iff, !Z.leb_le, !Z.ltb_lt. lia.
        -- by exists d.
Qed.

Lemma elem_of_get_neighbors (b : t) (u v : Node) :
  v ∈ get_neighbors b u ↔ adjacent u v ∧ in_bounds b v.
Proof.
  destruct u as [row col]. unfold get_neighbors.
  rewrite elem_of_neighbors_along. unfold directions, adjacent. simpl. split.
  - intros (d & Hd & -> & Hb). split; [|done].
    repeat (apply elem_of_cons in Hd as [->|Hd]; [simpl; lia|]).
    by apply elem_of_nil in Hd.
  - intros [Ha Hb]. destruct v as [r c]. simpl in Ha.
    assert (Hd : (r, c) = (row + -1, col + 0) ∨ (r, c) = (row + 1, col + 0)
                 ∨ (r, c) = (row + 0, col + -1) ∨ (r, c) = (row + 0, col + 1)).
    { assert ((r = row + -1 ∧ c = col + 0) ∨ (r = row + 1 ∧ c = col + 0)
              ∨ (r = row + 0 ∧ c = col + -1) ∨ (r = row + 0 ∧ c = col + 1))
        as [[-> ->]|[[-> ->]|[[-> ->]|[-> ->]]]] by lia; auto. }
    destruct Hd as [Hd|[Hd|[Hd|Hd]]].
    + exists (-1, 0). split; [rewrite !elem_of_cons; auto 6|done].
    + exists (1, 0). split; [rewrite !elem_of_cons; auto 6|done].
    + exists (0, -1). split; [rewrite !elem_of_cons; auto 6|done].
    + exists (0, 1). split; [rewrite !elem_of_cons; auto 6|done].
Qed.

Lemma get_edge_state_player (b : t) (player : Z) (u v : Node) :
  get_edge_state b u v = player_state player
  ↔ edges b !! _normalize_edge u v = Some (player_state player).
Proof.
  unfold get_edge_state.
  destruct (edges b !! _normalize_edge u v) as [s|]; simpl.
  - split; congruence.
  - split; [|done]. intros H. symmetry in H.
    by apply player_state_not_empty in H.
Qed.

Lemma owned_step_search (b : t) (player : Z) (u v : Node) :
  owned_step b player u v
  ↔ v ∈ get_neighbors b u ∧ get_edge_state b u v = player_state player.
Proof.
  unfold owned_step. rewrite elem_of_get_neighbors, get_edge_state_player.
  tauto.
Qed.

Section Dfs.
Variable b : t.
Variable ends : list Node.
Variable player : Z.

Abbreviation step := (owned_step b player).

(** A search that answers [True] has found a target reachable from its
    start. *)
Lemma visit_neighbors_true rec node ns visited visited' :
  (∀ n v v', rec n v = Some (true, v') → ∃ t, t ∈ ends ∧ rtc step n t) →
  (∀ n, n ∈ ns → n ∈ get_neighbors b node) →
  visit_neighbors b player rec node ns visited = Some (true, visited') →
  ∃ t, t ∈ ends ∧ rtc step node t.
Proof.
  intros Hrec. revert visited.
  induction ns as [|n ns IH]; intros visited Hns H; simpl in H; [done|].
  assert (Hns' : ∀ m, m ∈ ns → m ∈ get_neighbors b node).
  { intros m Hm. apply Hns. by right. }
  case_bool_decide as Hedge; [|by eapply IH].
  destruct (rec n visited) as [[[] v1]|] eqn:Hn; [|by eapply IH|done].
  destruct (Hrec _ _ _ Hn) as (t & Ht & Hpath).
  exists t. split; [done|].
  eapply rtc_l; [|done].
  apply owned_step_search. split; [apply Hns; left|done].
Qed.

Lemma dfs_true fuel node visited visited' :
  dfs b ends player fuel node visited = Some (true, visited') →
  ∃ t, t ∈ ends ∧ rtc step node t.
Proof.
  revert node visited visited'.
  induction fuel as [|fuel IH]; intros node visited visited' H; [done|].
  simpl in H.
  case_bool_decide as Hv; [done|].
  case_bool_decide as He.
  - exists node. split; [done|]. apply rtc_refl.
  - eapply visit_neighbors_true; [|done|exact H].
    intros n v v' Hn. by eapply IH.
Qed.

Lemma closed_over_trans v1 v2 v3 :
  closed_over b ends player v1 v2 → closed_over b ends player v2 v3 → closed_over b ends player v1 v3.
Proof.
  intros [Hs1 Hc1] [Hs2 Hc2]. split; [set_solver|].
  intros u Hu Hnu. destruct (decide (u ∈ v2)) as [Hin|Hnin].
  - destruct (Hc1 u Hin Hnu) as [? Hw]. split; [done|].
    intros w Hstep. apply Hs2. by apply Hw.
  - by apply Hc2.
Qed.

Lemma visit_neighbors_false rec node ns visited visited' :
  (∀ n v v', rec n v = Some (false, v') → n ∈ v' ∧ closed_over b ends player v v') →
  visit_neighbors b player rec node ns visited = Some (false, visited') →
  closed_over b ends player visited visited'
  ∧ ∀ n, n ∈ ns → get_edge_state b node n = player_state player →
         n ∈ visited'.
Proof.
  intros Hrec. revert visited.
  induction ns as [|n ns IH]; intros visited H; simpl in H.
  - injection H as <-. split; [|intros n Hn; by apply elem_of_nil in Hn].
    split; [done|]. by intros u ? ?.
  - case_bool_decide as Hedge.
    + destruct (rec n visited) as [[[] v1]|] eqn:Hn; [done| |done].
      destruct (Hrec _ _ _ Hn) as [Hin Hc1].
      destruct (IH _ H) as [Hc2 Hrest].
      split; [by eapply closed_over_trans|].
      intros m [->|Hm]%elem_of_cons Hm'.
      * destruct Hc2 as [Hsub _]. by apply Hsub.
      * by apply Hrest.
    + destruct (IH _ H) as [Hc Hrest]. split; [done|].
      intros m [->|Hm]%elem_of_cons Hm'; [done|by apply Hrest].
Qed.

Lemma dfs_false fuel node visited visited' :
  dfs b ends player fuel node visited = Some (false, visited') →
  node ∈ visited' ∧ closed_over b ends player visited visited'.
Proof.
  revert node visited visited'.
  induction fuel as [|fuel IH]; intros node visited visited' H; [done|].
  simpl in H.
  case_bool_decide as Hv.
  { injection H as <-. split; [done|]. split; [done|]. by intros u ? ?. }
  case_bool_decide as He; [done|].
  apply visit_neighbors_false in H as [[Hsub Hc] Hsucc]; [|by apply IH].
  split; [set_solver|]. split; [set_solver|].
  intros u Hu Hnu. destruct (decide (u = node)) as [->|Hne].
  - split; [done|]. intros w Hw. apply owned_step_search in Hw as [? ?].
    by apply Hsucc.
  - apply Hc; [done|set_solver].
Qed.

Lemma dfs_false_unreachable fuel start visited' t :
  dfs b ends player fuel start ∅ = Some (false, visited') →
  rtc step start t → t ∉ ends.
Proof.
  intros H Hpath. apply dfs_false in H as [Hstart [_ Hc]].
  assert (Hin : t ∈ visited').
  { induction Hpath as [|x y z Hxy _ IHp]; [done|].
    apply IHp. destruct (Hc x Hstart) as [_ Hw]; [set_solver|]. by apply Hw. }
  destruct (Hc t Hin); [set_solver|done].
Qed.

(** *** The fuel suffices

    Every nested call adds one in-bounds node to [visited]. *)
Lemma elem_of_node_set (v : Node) : v ∈ node_set b ↔ in_bounds b v.
Proof.
  unfold node_set, node_list, in_bounds.
  rewrite elem_of_list_to_set, list_elem_of_bind. split.
  - intros (row & Hv & Hrow). apply list_elem_of_bind in Hv as (col & Hv & Hcol).
    apply list_elem_of_singleton in Hv as ->.
    apply elem_of_range in Hrow, Hcol. done.
  - intros [Hr Hc]. exists v.1. split; [|by apply elem_of_range].
    apply list_elem_of_bind. exists v.2. split; [|by apply elem_of_range].
    destruct v. apply list_elem_of_singleton. done.
Qed.

Lemma length_range (n : Z) : length (range n) = Z.to_nat n.
Proof. unfold range. by rewrite length_fmap, length_seq. Qed.

Lemma length_bind_const {A B} (f : A → list B) (l : list A) (k : nat) :
  (∀ x, length (f x) = k) → length (l ≫= f) = (length l * k)%nat.
Proof.
  intros Hf. induction l as [|x l IH]; [done|].
  rewrite bind_cons, length_app, Hf, IH. simpl. lia.
Qed.

Lemma size_list_to_set_le (l : list Node) :
  (size (list_to_set l : gset Node) ≤ length l)%nat.
Proof.
  induction l as [|x l IH].
  - rewrite list_to_set_nil, size_empty. done.
  - rewrite list_to_set_cons, size_union_alt, size_singleton. simpl.
    assert (size (list_to_set l ∖ {[x]} : gset Node)
            ≤ size (list_to_set l : gset Node))%nat
      by (apply subseteq_size; set_solver).
    lia.
Qed.

Lemma size_node_set : (S (size (node_set b)) < search_fuel b)%nat.
Proof.
  unfold search_fuel, node_set.
  pose proof (size_list_to_set_le (node_list b)) as Hle.
  unfold node_list in Hle at 2.
  rewrite (length_bind_const _ _ (Z.to_nat (cols b))) in Hle.
  - rewrite length_range in Hle. lia.
  - intros row. rewrite (length_bind_const _ _ 1%nat) by done.
    rewrite length_range. lia.
Qed.

Lemma size_unvisited_mono (v1 v2 : gset Node) :
  v1 ⊆ v2 → (size (node_set b ∖ v2) ≤ size (node_set b ∖ v1))%nat.
Proof. intros H. apply subseteq_size. set_solver. Qed.

Lemma size_unvisited_lt (v : gset Node) (node : Node) :
  node ∈ node_set b → node ∉ v →
  (size (node_set b ∖ ({[node]} ∪ v)) < size (node_set b ∖ v))%nat.
Proof.
  intros Hin Hnv. apply subset_size. split; [set_solver|].
  intros Hsub. assert (node ∈ node_set b ∖ ({[node]} ∪ v)) as Hbad
    by (apply Hsub; set_solver).
  set_solver.
Qed.

Lemma visit_neighbors_some rec fuel node ns visited :
  (∀ n v, n ∈ node_set b → (size (node_set b ∖ v) < fuel)%nat →
          ∃ r v', rec n v = Some (r, v') ∧ v ⊆ v') →
  (∀ n, n ∈ ns → n ∈ node_set b) →
  (size (node_set b ∖ visited) < fuel)%nat →
  ∃ r visited', visit_neighbors b player rec node ns visited = Some (r, visited')
                ∧ visited ⊆ visited'.
Proof.
  intros Hrec. revert visited.
  induction ns as [|n ns IH]; intros visited Hns Hsize; simpl.
  - by exists false, visited.
  - assert (Hns' : ∀ m, m ∈ ns → m ∈ node_set b).
    { intros m Hm. apply Hns. by right. }
    case_bool_decide as Hedge; [|by apply IH].
    destruct (Hrec n visited) as (r & v1 & -> & Hsub); [apply Hns; left|done|].
    destruct r; [by exists true, v1|].
    destruct (IH v1) as (r & v2 & -> & Hsub2); [done| |].
    + pose proof (size_unvisited_mono _ _ Hsub). lia.
    + exists r, v2. split; [done|]. set_solver.
Qed.

Lemma neighbors_in_node_set (node n : Node) :
  n ∈ get_neighbors b node → n ∈ node_set b.
Proof.
  rewrite elem_of_get_neighbors, elem_of_node_set. by intros [_ ?].
Qed.

Lemma dfs_some fuel node visited :
  node ∈ node_set b → (size (node_set b ∖ visited) < fuel)%nat →
  ∃ r visited', dfs b ends player fuel node visited = Some (r, visited')
                ∧ visited ⊆ visited'.
Proof.
  revert node visited.
  induction fuel as [|fuel IH]; intros node visited Hin Hsize; [lia|].
  simpl. case_bool_decide as Hv; [by exists false, visited|].
  case_bool_decide as He; [by exists true, visited|].
  destruct (visit_neighbors_some (dfs b ends player fuel) fuel node
              (get_neighbors b node) ({[node]} ∪ visited))
    as (r & v' & -> & Hsub); [done|apply neighbors_in_node_set| |].
  - pose proof (size_unvisited_lt visited node Hin Hv). lia.
  - exists r, v'. split; [done|]. set_solver.
Qed.

(** A search from any start node, in bounds or not, with an empty visited
    set returns. *)
Lemma dfs_start_some fuel start :
  (S (size (node_set b)) < fuel)%nat →
  ∃ r visited', dfs b ends player fuel start ∅ = Some (r, visited').
Proof.
  intros Hfuel. destruct fuel as [|fuel]; [lia|]. simpl.
  case_bool_decide as Hv; [by exists false, ∅|].
  case_bool_decide as He; [by exists true, ∅|].
  destruct (visit_neighbors_some (dfs b ends player fuel) fuel start
              (get_neighbors b start) ({[start]} ∪ ∅))
    as (r & v' & -> & Hsub).
  - intros n v. apply dfs_some.
  - apply neighbors_in_node_set.
  - assert (size (node_set b ∖ ({[start]} ∪ ∅)) ≤ size (node_set b))%nat
      by (apply subseteq_size; set_solver).
    lia.
  - by exists r, v'.
Qed.

(** The loop over the start nodes. *)
Lemma try_starts_spec fuel starts :
  (S (size (node_set b)) < fuel)%nat →
  ∃ r, try_starts b ends player fuel starts = Some r
       ∧ (r = true ↔ ∃ s t, s ∈ starts ∧ t ∈ ends ∧ rtc step s t).
Proof.
  intros Hfuel. induction starts as [|s starts IH]; simpl.
  - exists false. split; [done|]. split; [done|].
    intros (s & t & Hs & _). by apply elem_of_nil in Hs.
  - destruct (dfs_start_some fuel s Hfuel) as (r & v' & Hdfs). rewrite Hdfs.
    destruct r.
    + exists true. split; [done|]. split; [|done]. intros _.
      destruct (dfs_true _ _ _ _ Hdfs) as (t & Ht & Hpath).
      exists s, t. split; [left|done].
    + destruct IH as (r & -> & Hr). exists r. split; [done|].
      rewrite Hr. split.
      * intros (s' & t & Hs' & Ht & Hpath). exists s', t. split; [by right|done].
      * intros (s' & t & [->|Hs']%elem_of_cons & Ht & Hpath).
        -- exfalso. by eapply dfs_false_unreachable.
        -- by exists s', t.
Qed.

End Dfs.

Lemma has_winning_path_opt_spec (b : t) (player : Z) :
  has_winning_path_opt b player = Some (has_winning_path b player)
  ∧ (has_winning_path b player = true ↔
       ∃ s t, s ∈ start_nodes b player ∧ t ∈ end_nodes b player
              ∧ rtc (owned_step b player) s t).
Proof.
  unfold has_winning_path, has_winning_path_opt, _has_path_between_sets.
  destruct (try_starts_spec b (end_nodes b player) player (search_fuel b)
              (start_nodes b player) (size_node_set b)) as (r & -> & Hr).
  done.
Qed.


Lemma no_edges_no_step (b : t) (player : Z) (u v : Node) :
  get_player_edges b player = ∅ → ¬ owned_step b player u v.
Proof.
  intros Hnone (_ & _ & He).
  apply get_player_edges_spec in He. rewrite Hnone in He.
  by apply not_elem_of_empty in He.
Qed.

Lemma no_edges_path_trivial (b : t) (player : Z) (u v : Node) :
  get_player_edges b player = ∅ → rtc (owned_step b player) u v → u = v.
Proof.
  intros Hnone Hpath. destruct Hpath as [|x y z Hxy _]; [done|].
  by apply no_edges_no_step in Hxy.
Qed.

Lemma elem_of_start_nodes_1 (b : t) (s : Node) :
  s ∈ start_nodes b 1 ↔ ∃ col, 0 ≤ col < cols b ∧ s = (0, col).
Proof.
  unfold start_nodes. simpl. rewrite list_elem_of_fmap.
  split; intros (col & H1 & H2); exists col.
  - by apply elem_of_range in H2.
  - by apply elem_of_range in H1.
Qed.

Lemma elem_of_end_nodes_1 (b : t) (s : Node) :
  s ∈ end_nodes b 1 ↔ ∃ col, 0 ≤ col < cols b ∧ s = (rows b - 1, col).
Proof.
  unfold end_nodes. simpl. rewrite list_elem_of_fmap.
  split; intros (col & H1 & H2); exists col.
  - by apply elem_of_range in H2.
  - by apply elem_of_range in H1.
Qed.

Lemma elem_of_start_nodes_2 (b : t) (player : Z) (s : Node) :
  player ≠ 1 →
  s ∈ start_nodes b player ↔ ∃ row, 0 ≤ row < rows b ∧ s = (row, 0).
Proof.
  intros Hp. unfold start_nodes.
  destruct (Z.eqb_spec player 1) as [|_]; [done|].
  rewrite list_elem_of_fmap.
  split; intros (row & H1 & H2); exists row.
  - by apply elem_of_range in H2.
  - by apply elem_of_range in H1.
Qed.

Lemma elem_of_end_nodes_2 (b : t) (player : Z) (s : Node) :
  player ≠ 1 →
  s ∈ end_nodes b player ↔ ∃ row, 0 ≤ row < rows b ∧ s = (row, cols b - 1).
Proof.
  intros Hp. unfold end_nodes.
  destruct (Z.eqb_spec player 1) as [|_]; [done|].
  rewrite list_elem_of_fmap.
  split; intros (row & H1 & H2); exists row.
  - by apply elem_of_range in H2.
  - by apply elem_of_range in H1.
Qed.

(** Player 1 wins exactly with a path of own bridges from row 0 to the last
    row. *)
Lemma has_winning_path_1 (b : t) :
  has_winning_path b 1 = true ↔
  ∃ c c', 0 ≤ c < cols b ∧ 0 ≤ c' < cols b
          ∧ rtc (owned_step b 1) (0, c) (rows b - 1, c').
Proof.
  rewrite (proj2 (has_winning_path_opt_spec b 1)). split.
  - intros (s & t & Hs & Ht & Hpath).
    apply elem_of_start_nodes_1 in Hs as (c & Hc & ->).
    apply elem_of_end_nodes_1 in Ht as (c' & Hc' & ->).
    by exists c, c'.
  - intros (c & c' & Hc & Hc' & Hpath).
    exists (0, c), (rows b - 1, c').
    split; [apply elem_of_start_nodes_1; by exists c|].
    split; [apply elem_of_end_nodes_1; by exists c'|done].
Qed.

(** Any other player id wins exactly with a path of bridges carrying the
    [PLAYER2] marker from column 0 to the last column. *)
Lemma has_winning_path_2 (b : t) (player : Z) :
  player ≠ 1 →
  has_winning_path b player = true ↔
  ∃ r r', 0 ≤ r < rows b ∧ 0 ≤ r' < rows b
          ∧ rtc (owned_step b player) (r, 0) (r', cols b - 1).
Proof.
  intros Hp. rewrite (proj2 (has_winning_path_opt_spec b player)). split.
  - intros (s & t & Hs & Ht & Hpath).
    apply elem_of_start_nodes_2 in Hs as (r & Hr & ->); [|done].
    apply elem_of_end_nodes_2 in Ht as (r' & Hr' & ->); [|done].
    by exists r, r'.
  - intros (r & r' & Hr & Hr' & Hpath).
    exists (r, 0), (r', cols b - 1).
    split; [apply elem_of_start_nodes_2; [done|by exists r]|].
    split; [apply elem_of_end_nodes_2; [done|by exists r']|done].
Qed.

End Connectivity.




(** ** The engine: what every reachable state satisfies *)

Section EngineInvariant.
Import Game.

Lemma pop_snoc {A} (l : list A) (x : A) : pop (l ++ [x]) = Some (x, l).
Proof. unfold pop. by rewrite last_snoc, removelast_last. Qed.

Lemma pop_Some {A} (l l' : list A) (x : A) :
  pop l = Some (x, l') → l = l' ++ [x].
Proof.
  destruct (decide (l = [])) as [->|Hne]; [done|].
  destruct (exists_last Hne) as (l0 & x0 & ->).
  rewrite pop_snoc. by intros [= -> ->].
Qed.

Lemma py_position_small {A} (l : list A) (i : Z) :
  0 ≤ i < Z.of_nat (length l) → py_position l i = Some (Z.to_nat i).
Proof.
  intros Hi. unfold py_position.
  destruct (Z.leb_spec 0 i), (Z.ltb_spec i (Z.of_nat (length l))); simpl;
    first [done|lia].
Qed.

(** In a started game the current player is the one at the turn index,
    and carries the id [index + 1]. *)
Lemma get_current_player_playing (g : t) :
  invariant g → game_state g = PLAYING →
  ∃ i p, get_current_player g = Returns (Some (i, p))
         ∧ current_player_index g = Z.of_nat i
         ∧ players g !! i = Some p
         ∧ Player.player_id p = Z.of_nat i + 1
         ∧ (i < 2)%nat.
Proof.
  intros Hinv Hst.
  assert (Hlen : length (players g) = 2%nat).
  { apply (inv_started g Hinv). by rewrite Hst. }
  pose proof (inv_index g Hinv) as Hidx.
  assert (Hpos : py_position (players g) (current_player_index g)
                 = Some (Z.to_nat (current_player_index g))).
  { apply py_position_small. rewrite Hlen. lia. }
  destruct (lookup_lt_is_Some_2 (players g) (Z.to_nat (current_player_index g)))
    as [p Hp]; [lia|].
  exists (Z.to_nat (current_player_index g)), p.
  unfold get_current_player. rewrite Hst. simpl.
  rewrite bool_decide_eq_false_2
    by (intros Hnil; rewrite Hnil in Hlen; done).
  rewrite Hpos, Hp.
  split; [done|]. split; [lia|]. split; [done|].
  split; [by apply (inv_ids g Hinv)|lia].
Qed.

(** The three ways a call of [make_move] in a started game ends. *)
Lemma make_move_playing (g : t) (n1 n2 : Board.Node) :
  invariant g → game_state g = PLAYING →
  ∃ i p,
    current_player_index g = Z.of_nat i
    ∧ players g !! i = Some p
    ∧ Player.player_id p = Z.of_nat i + 1
    ∧ (i < 2)%nat
    ∧ let pid := Player.player_id p in
      let e := Board._normalize_edge n1 n2 in
      let board' :=
        Board.set_edges (board g)
          (<[e := Board.player_state pid]> (Board.edges (board g))) in
      let players' :=
        <[i := Player.set_moves_made p (Player.moves_made p + 1)]>
          (players g) in
      let history' := move_history g ++ [(n1, n2, pid)] in
      (Board.edges (board g) !! e ≠ Some Board.EMPTY
       ∧ make_move g n1 n2 = (Returns false, g))
      ∨ (Board.edges (board g) !! e = Some Board.EMPTY
         ∧ Board.has_winning_path board' pid = true
         ∧ make_move g n1 n2
           = (Returns true,
              {| board := board'; players := players';
                 current_player_index := current_player_index g;
                 game_state := FINISHED; winner := Some i;
                 move_history := history' |}))
      ∨ (Board.edges (board g) !! e = Some Board.EMPTY
         ∧ Board.has_winning_path board' pid = false
         ∧ make_move g n1 n2
           = (Returns true,
              {| board := board'; players := players';
                 current_player_index := 1 - current_player_index g;
                 game_state := game_state g; winner := winner g;
                 move_history := history' |})).
Proof.
  intros Hinv Hst.
  destruct (get_current_player_playing g Hinv Hst)
    as (i & p & Hcur & Hidx & Hp & Hid & Hi).
  exists i, p. do 4 (split; [done|]). intros pid e board' players' history'.
  unfold make_move. rewrite Hcur, Hst. simpl.
  destruct (place_bridge_cases (board g) n1 n2 (Player.player_id p))
    as [[He ->]|[He ->]].
  - right. fold pid e board'.
    destruct (Board.has_winning_path board' pid) eqn:Hwin.
    + left. done.
    + right. done.
  - left. done.
Qed.

Lemma make_move_not_playing (g : t) (n1 n2 : Board.Node) :
  game_state g ≠ PLAYING → make_move g n1 n2 = (Returns false, g).
Proof.
  intros Hst. unfold make_move. by rewrite bool_decide_eq_false_2.
Qed.

Lemma two_players (g : t) :
  invariant g → game_state g ≠ SETUP →
  ∃ p1 p2, players g = [p1; p2]
           ∧ Player.player_id p1 = 1 ∧ Player.player_id p2 = 2.
Proof.
  intros Hinv Hst. pose proof (inv_started g Hinv Hst) as Hlen.
  pose proof (inv_ids g Hinv) as Hids.
  destruct (players g) as [|p1 [|p2 [|? ?]]]; try done.
  exists p1, p2. split; [done|].
  split; [apply (Hids 0%nat)|apply (Hids 1%nat)]; done.
Qed.

Lemma history_started (g : t) :
  invariant g → move_history g ≠ [] → game_state g ≠ SETUP.
Proof. intros Hinv Hne Hst. by apply (inv_setup g Hinv) in Hst. Qed.

Lemma invariant_new (board_rows board_cols : Z) :
  invariant (new board_rows board_cols).
Proof.
  split; simpl; try done.
  - lia.
  - by left.
  - apply NoDup_nil_2.
  - by intros m ?%elem_of_nil.
  - intros e st He Hne. by apply new_all_empty in He.
Qed.

Lemma total_moves_app (ps qs : list Player.t) :
  total_moves (ps ++ qs) = total_moves ps + total_moves qs.
Proof.
  induction ps as [|p ps IH]; simpl; [done|].
  unfold total_moves in *. simpl. rewrite IH. lia.
Qed.

Lemma invariant_add_player (g : t) name color ty :
  invariant g → invariant (add_player g name color ty).2.
Proof.
  intros Hinv. unfold add_player.
  destruct (Z.leb_spec 2 (Z.of_nat (length (players g)))) as [|Hlt]; [done|].
  assert (Hsetup : game_state g = SETUP).
  { destruct (decide (game_state g = SETUP)) as [|Hne]; [done|].
    apply (inv_started g Hinv) in Hne. lia. }
  destruct Hinv. split; simpl; try done.
  - intros i p Hp. apply lookup_app_Some in Hp as [Hp|[Hge Hp]]; [by eauto|].
    apply list_lookup_singleton_Some in Hp as [Hi <-]. simpl. lia.
  - rewrite length_app. simpl. lia.
  - intros i Hi. rewrite length_app. apply inv_winner0 in Hi. lia.
  - rewrite total_moves_app. rewrite inv_moves0. simpl. lia.
Qed.

Lemma invariant_start_game (g : t) :
  invariant g → invariant (start_game g).2.
Proof.
  intros Hinv. unfold start_game.
  destruct (Z.eqb_spec (Z.of_nat (length (players g))) 2) as [Hlen|]; [|done].
  destruct Hinv. split; simpl; try done.
  - by left.
  - intros _. lia.
Qed.

(** The state after any successful placement. *)
Lemma invariant_placed (g : t) (n1 n2 : Board.Node) (i : nat) (p : Player.t)
    (index' : Z) (state' : GameState) (winner' : option nat) :
  invariant g → game_state g = PLAYING →
  players g !! i = Some p → Player.player_id p = Z.of_nat i + 1 → (i < 2)%nat →
  Board.edges (board g) !! Board._normalize_edge n1 n2 = Some Board.EMPTY →
  (index' = 0 ∨ index' = 1) → state' ≠ SETUP →
  (∀ j, winner' = Some j → (j < 2)%nat) →
  invariant
    {| board :=
         Board.set_edges (board g)
           (<[Board._normalize_edge n1 n2 :=
                Board.player_state (Player.player_id p)]>
              (Board.edges (board g)));
       players :=
         <[i := Player.set_moves_made p (Player.moves_made p + 1)]> (players g);
       current_player_index := index';
       game_state := state';
       winner := winner';
       move_history := move_history g ++ [(n1, n2, Player.player_id p)] |}.
Proof.
  intros Hinv Hst Hp Hid Hi He Hidx Hst' Hwin.
  destruct (two_players g Hinv) as (p1 & p2 & Hps & Hid1 & Hid2);
    [by rewrite Hst|].
  assert (Hfresh : Board._normalize_edge n1 n2 ∉ move_edge <$> move_history g).
  { intros (m & Hm & Hin)%list_elem_of_fmap.
    apply (inv_history g Hinv) in Hin as [_ Hin].
    rewrite <- Hm, He in Hin. injection Hin as Hin. symmetry in Hin.
    by apply player_state_not_empty in Hin. }
  split; simpl.
  - intros j q Hq. rewrite Hps in Hq, Hp.
    destruct i as [|[|i]], j as [|[|j]]; simpl in *;
      try done; injection Hp as <-; injection Hq as <-; simpl; lia.
  - rewrite length_insert. by apply inv_at_most_two.
  - done.
  - intros _. rewrite length_insert, Hps. done.
  - done.
  - intros j Hj. rewrite length_insert, Hps. by apply Hwin.
  - eapply on_grid_overwrite; [apply (inv_grid g Hinv)|exact He].
  - rewrite fmap_app. apply NoDup_app. split; [by apply inv_nodup|].
    split; [|apply NoDup_singleton].
    intros e Hin ->%list_elem_of_singleton. done.
  - intros m [Hm| ->%list_elem_of_singleton]%elem_of_app.
    + destruct (inv_history g Hinv m Hm) as [Hpid Hlook]. split; [done|].
      rewrite lookup_insert_ne; [done|].
      intros Heq. apply Hfresh. rewrite Heq.
      apply list_elem_of_fmap. by exists m.
    + simpl. split; [lia|].
      unfold move_edge. simpl. by rewrite lookup_insert_eq.
  - intros e st Hlook Hne. rewrite fmap_app, elem_of_app.
    destruct (decide (e = Board._normalize_edge n1 n2)) as [->|Hneq].
    + right. by apply list_elem_of_singleton.
    + left. rewrite lookup_insert_ne in Hlook by done.
      by eapply inv_owned.
  - rewrite length_app, Nat2Z.inj_add. simpl.
    rewrite <- (inv_moves g Hinv). rewrite Hps in Hp |- *.
    destruct i as [|[|i]]; simpl in *; try done; injection Hp as <-;
      unfold total_moves; simpl; lia.
Qed.

Lemma invariant_make_move (g : t) (n1 n2 : Board.Node) :
  invariant g → invariant (make_move g n1 n2).2.
Proof.
  intros Hinv.
  destruct (decide (game_state g = PLAYING)) as [Hst|Hst];
    [|by rewrite make_move_not_playing].
  destruct (make_move_playing g n1 n2 Hinv Hst)
    as (i & p & Hidx & Hp & Hid & Hi & [[_ ->]|[(He & _ & ->)|(He & _ & ->)]]);
    simpl; [done| |].
  - apply invariant_placed; try done.
    + apply (inv_index g Hinv).
    + by intros j [= <-].
  - apply invariant_placed; try done.
    + destruct (inv_index g Hinv) as [-> | ->]; [by right|by left].
    + by rewrite Hst.
    + intros j Hj. apply (inv_winner g Hinv) in Hj.
      pose proof (inv_at_most_two g Hinv). 
      assert (length (players g) = 2%nat)
        by (apply (inv_started g Hinv); by rewrite Hst).
      lia.
Qed.

(** What [undo_last_move] does when it goes through: the history ends in
    a move [m], whose edge is cleared and whose player loses one move. *)
Lemma undo_last_move_playing (g : t) :
  invariant g → move_history g ≠ [] → game_state g ≠ FINISHED →
  ∃ h m, move_history g = h ++ [m]
    ∧ undo_last_move g
      = (Returns true,
         {| board := Board.set_edges (board g)
                       (<[move_edge m := Board.EMPTY]> (Board.edges (board g)));
            players := decrement_moves (players g) m.2;
            current_player_index := 1 - current_player_index g;
            game_state := game_state g; winner := winner g;
            move_history := h |}).
Proof.
  intros Hinv Hne Hst.
  destruct (exists_last Hne) as (h & m & Hh).
  exists h, m. split; [done|].
  unfold undo_last_move.
  rewrite (bool_decide_eq_false_2 _ Hne), (bool_decide_eq_false_2 _ Hst).
  simpl. rewrite Hh, pop_snoc. destruct m as [[m1 m2] pid].
  destruct (inv_history g Hinv (m1, m2, pid)) as [_ Hlook].
  { rewrite Hh. apply elem_of_app. right. by apply list_elem_of_singleton. }
  unfold move_edge in *. simpl in *. by rewrite Hlook.
Qed.

Lemma undo_last_move_refused (g : t) :
  move_history g = [] ∨ game_state g = FINISHED →
  undo_last_move g = (Returns false, g).
Proof.
  intros H. unfold undo_last_move.
  destruct H as [H|H].
  - by rewrite (bool_decide_eq_true_2 _ H).
  - rewrite (bool_decide_eq_true_2 (game_state g = FINISHED) H).
    by rewrite orb_true_r.
Qed.

Lemma invariant_undo_last_move (g : t) :
  invariant g → invariant (undo_last_move g).2.
Proof.
  intros Hinv.
  destruct (decide (move_history g = [])) as [Hnil|Hne];
    [by rewrite undo_last_move_refused by (by left)|].
  destruct (decide (game_state g = FINISHED)) as [Hfin|Hst];
    [by rewrite undo_last_move_refused by (by right)|].
  destruct (undo_last_move_playing g Hinv Hne Hst) as (h & m & Hh & ->).
  simpl.
  destruct (two_players g Hinv) as (p1 & p2 & Hps & Hid1 & Hid2);
    [by apply history_started|].
  pose proof (inv_nodup g Hinv) as Hnd.
  rewrite Hh, fmap_app in Hnd. apply NoDup_app in Hnd as (Hnd & Hlast & _).
  assert (Hm : (m.2 = 1 ∨ m.2 = 2)
               ∧ Board.edges (board g) !! move_edge m
                 = Some (Board.player_state m.2)).
  { apply (inv_history g Hinv). rewrite Hh. apply elem_of_app. right.
    by apply list_elem_of_singleton. }
  destruct Hm as [Hm Hlast_edge].
  assert (Hdec : ∃ q1 q2, decrement_moves (players g) m.2 = [q1; q2]
            ∧ Player.player_id q1 = 1 ∧ Player.player_id q2 = 2
            ∧ Player.moves_made q1 + Player.moves_made q2
              = Player.moves_made p1 + Player.moves_made p2 - 1).
  { rewrite Hps. simpl. rewrite Hid1, Hid2.
    destruct Hm as [-> | ->]; simpl; eexists _, _; (split; [done|]);
      simpl; repeat split; try done; lia. }
  destruct Hdec as (q1 & q2 & Hdec & Hq1 & Hq2 & Hsum).
  split; simpl.
  - intros i p. rewrite Hdec. destruct i as [|[|i]]; simpl; try done.
    + intros [= <-]. by rewrite Hq1.
    + intros [= <-]. by rewrite Hq2.
  - rewrite Hdec. simpl. lia.
  - destruct (inv_index g Hinv) as [-> | ->]; [by right|by left].
  - intros _. by rewrite Hdec.
  - intros Hs. by apply history_started in Hs.
  - intros j Hj. apply (inv_winner g Hinv) in Hj. rewrite Hps in Hj.
    by rewrite Hdec.
  - eapply on_grid_overwrite; [apply (inv_grid g Hinv)|exact Hlast_edge].
  - done.
  - intros m' Hm'. destruct (inv_history g Hinv m') as [Hpid Hlook].
    { rewrite Hh. apply elem_of_app. by left. }
    split; [done|]. rewrite lookup_insert_ne; [done|].
    intros Heq. apply (Hlast (move_edge m')).
    + apply list_elem_of_fmap. by exists m'.
    + rewrite <- Heq. by apply list_elem_of_singleton.
  - intros e st Hlook Hnempty.
    destruct (decide (e = move_edge m)) as [->|Hneq].
    + rewrite lookup_insert_eq in Hlook. by injection Hlook as <-.
    + rewrite lookup_insert_ne in Hlook by done.
      pose proof (inv_owned g Hinv e st Hlook Hnempty) as Hin.
      rewrite Hh, fmap_app in Hin.
      apply elem_of_app in Hin as [Hin|Hin%list_elem_of_singleton]; done.
  - rewrite Hdec. pose proof (inv_moves g Hinv) as Htot.
    rewrite Hps, Hh, length_app, Nat2Z.inj_add in Htot.
    unfold total_moves in *. simpl in *. lia.
Qed.

Lemma total_moves_reset (ps : list Player.t) :
  total_moves ((λ p, Player.set_moves_made p 0) <$> ps) = 0.
Proof.
  induction ps as [|p ps IH]; [done|].
  rewrite fmap_cons. change (0 + total_moves
    ((λ p, Player.set_moves_made p 0) <$> ps) = 0). by rewrite IH.
Qed.

Lemma invariant_reset_game (g : t) : invariant g → invariant (reset_game g).
Proof.
  intros Hinv. split; simpl.
  - intros i p Hp. apply list_lookup_fmap_Some in Hp as (q & -> & Hq).
    simpl. by apply (inv_ids g Hinv).
  - rewrite length_fmap. apply (inv_at_most_two g Hinv).
  - by left.
  - rewrite length_fmap.
    destruct (Z.eqb_spec (Z.of_nat (length (players g))) 2); simpl; [lia|done].
  - done.
  - done.
  - apply on_grid_new.
  - apply NoDup_nil_2.
  - by intros m ?%elem_of_nil.
  - intros e st He Hne. by apply new_all_empty in He.
  - apply total_moves_reset.
Qed.

Theorem reachable_invariant (g : t) : reachable g → invariant g.
Proof.
  induction 1.
  - apply invariant_new.
  - by apply invariant_add_player.
  - by apply invariant_start_game.
  - by apply invariant_make_move.
  - by apply invariant_undo_last_move.
  - by apply invariant_reset_game.
Qed.

End EngineInvariant.

(** ** History, owned edges and counters *)

Section Balance.
Import Game.

Lemma invariant_balanced (g : t) : invariant g → history_balanced g.
Proof.
  intros Hinv. split; [|apply (inv_moves g Hinv)].
  rewrite <- size_union.
  - rewrite <- (length_fmap move_edge).
    rewrite <- (size_list_to_set (C := gset Board.Edge))
      by apply (inv_nodup g Hinv).
    f_equal. apply set_eq. intros e.
    rewrite elem_of_list_to_set, elem_of_union, !get_player_edges_spec. split.
    + intros (m & -> & Hm)%list_elem_of_fmap.
      destruct (inv_history g Hinv m Hm) as [[Hpid|Hpid] Hlook];
        rewrite Hpid in Hlook; auto.
    + intros [H|H]; by eapply (inv_owned g Hinv).
  - intros e H1 H2. apply get_player_edges_spec in H1, H2.
    rewrite H1 in H2. done.
Qed.

End Balance.

(** C9: in every reachable state the history is as long as the number of
    edges owned by the two players together and as the sum of the players'
    move counters, and this still holds after [make_move], [undo_last_move]
    and [reset_game]. *)
Theorem history_length_matches_edges_and_counters (g : Game.t) :
  Game.reachable g →
  history_balanced g
  ∧ (∀ n1 n2, history_balanced (Game.make_move g n1 n2).2)
  ∧ history_balanced (Game.undo_last_move g).2
  ∧ history_balanced (Game.reset_game g).
Proof.
  intros Hreach. pose proof (reachable_invariant g Hreach) as Hinv.
  split; [by apply invariant_balanced|]. split; [|split].
  - intros n1 n2. by apply invariant_balanced, invariant_make_move.
  - by apply invariant_balanced, invariant_undo_last_move.
  - by apply invariant_balanced, invariant_reset_game.
Qed.

(** ** Undo after a move *)

Section Undo.
Import Game.

Lemma set_moves_made_back (p : Player.t) :
  Player.set_moves_made
    (Player.set_moves_made p (Player.moves_made p + 1))
    (Player.moves_made
       (Player.set_moves_made p (Player.moves_made p + 1)) - 1)
  = p.
Proof.
  destruct p. unfold Player.set_moves_made. simpl. f_equal. lia.
Qed.

Lemma undo_after_move (g g' : t) (n1 n2 : Board.Node) :
  invariant g → game_state g = PLAYING →
  make_move g n1 n2 = (Returns true, g') → game_state g' ≠ FINISHED →
  undo_last_move g' = (Returns true, g).
Proof.
  intros Hinv Hst Hmove Hnf.
  pose proof (invariant_make_move g n1 n2 Hinv) as Hinv'.
  destruct (two_players g Hinv) as (p1 & p2 & Hps & Hid1 & Hid2);
    [by rewrite Hst|].
  destruct (make_move_playing g n1 n2 Hinv Hst)
    as (i & p & Hidx & Hp & Hid & Hi & [[_ Hm]|[(He & _ & Hm)|(He & _ & Hm)]]);
    rewrite Hm in Hmove, Hinv'; simpl in Hinv';
    [done|by injection Hmove as <-|injection Hmove as <-].
  destruct (undo_last_move_playing _ Hinv') as (h & m & Hh & ->);
    [simpl; by destruct (move_history g)|done|].
  simpl in Hh. apply app_inj_tail in Hh as [<- <-]. simpl.
  f_equal. destruct g as [b ps idx st w hist]. simpl in *. f_equal.
  - destruct b as [r c es]. unfold Board.set_edges, move_edge. simpl in *.
    f_equal. rewrite insert_insert_eq. by apply insert_id.
  - subst ps. destruct i as [|[|i]]; simpl in *; try lia;
      injection Hp as <-; simpl.
    + rewrite Hid1. simpl. f_equal. apply set_moves_made_back.
    + rewrite Hid1, Hid2. simpl. do 2 f_equal. apply set_moves_made_back.
  - lia.
Qed.

End Undo.

(** C3: in a reachable started game, a successful move that does not end
    the game, followed at once by an undo, gives back the state before the
    move: the same edge dictionary (the placed edge is [EMPTY] again, no
    other edge touched), the same turn index, the same move counters and the
    same history. *)
Theorem undo_restores_state_before_move
    (g g' : Game.t) (n1 n2 : Board.Node) :
  Game.reachable g → Game.game_state g = Game.PLAYING →
  Game.make_move g n1 n2 = (Game.Returns true, g') →
  Game.game_state g' ≠ Game.FINISHED →
  Game.undo_last_move g' = (Game.Returns true, g)
  ∧ Board.edges (Game.board g) !! Board._normalize_edge n1 n2
    = Some Board.EMPTY
  ∧ Board.edges (Game.board g') !! Board._normalize_edge n1 n2
    ≠ Some Board.EMPTY.
Proof.
  intros Hreach Hst Hmove Hnf.
  pose proof (reachable_invariant g Hreach) as Hinv.
  split; [by eapply undo_after_move|].
  destruct (make_move_playing g n1 n2 Hinv Hst)
    as (i & p & _ & _ & _ & _ & [[_ Hm]|[(He & _ & Hm)|(He & _ & Hm)]]);
    rewrite Hm in Hmove; [done| |]; injection Hmove as <-.
  - split; [done|]. simpl. rewrite lookup_insert_eq. intros [= H].
    by apply player_state_not_empty in H.
  - split; [done|]. simpl. rewrite lookup_insert_eq. intros [= H].
    by apply player_state_not_empty in H.
Qed.

(** ** A game on a 3x3 board *)

Lemma reachable_game_3x3 : Game.reachable game_3x3.
Proof.
  unfold game_3x3.
  apply Game.reach_start_game, Game.reach_add_player, Game.reach_add_player,
    Game.reach_new.
Defined.

Lemma reachable_game_3x3_two_moves : Game.reachable game_3x3_two_moves.
Proof.
  unfold game_3x3_two_moves.
  apply Game.reach_make_move, Game.reach_make_move, reachable_game_3x3.
Defined.

Lemma reachable_game_3x3_won : Game.reachable game_3x3_won.
Proof.
  unfold game_3x3_won.
  apply Game.reach_make_move, reachable_game_3x3_two_moves.
Defined.

Lemma history_length_matches_witness :
  Game.reachable game_3x3_two_moves ∧ history_balanced game_3x3_two_moves.
Proof.
  split; [exact reachable_game_3x3_two_moves|].
  exact (proj1 (history_length_matches_edges_and_counters
                  game_3x3_two_moves reachable_game_3x3_two_moves)).
Defined.

Lemma undo_restores_witness :
  Game.reachable game_3x3
  ∧ Game.game_state game_3x3 = Game.PLAYING
  ∧ Game.make_move game_3x3 (0, 0) (1, 0)
    = (Game.Returns true, (Game.make_move game_3x3 (0, 0) (1, 0)).2)
  ∧ Game.game_state (Game.make_move game_3x3 (0, 0) (1, 0)).2 ≠ Game.FINISHED
  ∧ Game.undo_last_move (Game.make_move game_3x3 (0, 0) (1, 0)).2
    = (Game.Returns true, game_3x3).
Proof.
  assert (H1 : Game.game_state game_3x3 = Game.PLAYING) by reflexivity.
  assert (H2 : Game.make_move game_3x3 (0, 0) (1, 0)
               = (Game.Returns true, (Game.make_move game_3x3 (0, 0) (1, 0)).2))
    by (vm_compute; reflexivity).
  assert (H3 : Game.game_state (Game.make_move game_3x3 (0, 0) (1, 0)).2
               ≠ Game.FINISHED) by (vm_compute; discriminate).
  split; [exact reachable_game_3x3|]. split; [exact H1|].
  split; [exact H2|]. split; [exact H3|].
  exact (proj1 (undo_restores_state_before_move game_3x3 _ (0, 0) (1, 0)
                  reachable_game_3x3 H1 H2 H3)).
Defined.

(** ** How the operations fail *)

Section Failures.
Import Game.



Lemma add_player_full (g : t) name color ty :
  (2 ≤ length (players g))%nat →
  add_player g name color ty = (Raises ValueError, g).
Proof.
  intros Hlen. unfold add_player.
  destruct (Z.leb_spec 2 (Z.of_nat (length (players g)))); [done|lia].
Qed.


End Failures.




(** ** The winning move *)

Section Winning.
Import Game.



Lemma reachable_game_3x3_one_move : reachable game_3x3_one_move.
Proof. apply reach_make_move, reachable_game_3x3. Qed.



End Winning.



(** ** A finished game *)

Section Finished.
Import Game.

(** [make_move] and [undo_last_move] refuse a finished game and leave it
    untouched; [add_player] raises without touching it. *)
Lemma finished_refuses (g : t) :
  invariant g → game_state g = FINISHED →
  (∀ n1 n2, make_move g n1 n2 = (Returns false, g))
  ∧ undo_last_move g = (Returns false, g)
  ∧ (∀ name color ty, add_player g name color ty = (Raises ValueError, g)).
Proof.
  intros Hinv Hfin. split; [|split].
  - intros n1 n2. apply make_move_not_playing. by rewrite Hfin.
  - apply undo_last_move_refused. by right.
  - intros name color ty. apply add_player_full.
    rewrite (inv_started g Hinv); [done|]. by rewrite Hfin.
Qed.

(** [start_game] has no check of the phase: on a finished game it succeeds
    and puts the phase back to [PLAYING], keeping winner, board and
    history. *)
Lemma start_game_finished (g : t) :
  invariant g → game_state g = FINISHED →
  start_game g
  = (true,
     {| board := board g; players := players g; current_player_index := 0;
        game_state := PLAYING; winner := winner g;
        move_history := move_history g |}).
Proof.
  intros Hinv Hfin. unfold start_game.
  rewrite (inv_started g Hinv) by (by rewrite Hfin). done.
Qed.

(** A successful move that does not end the game hands the turn to the
    other player. *)
Lemma make_move_alternates (g g' : t) (n1 n2 : Board.Node) :
  invariant g → game_state g = PLAYING →
  make_move g n1 n2 = (Returns true, g') → game_state g' ≠ FINISHED →
  current_player_index g' = 1 - current_player_index g
  ∧ ∃ pid pid', current_player_id g = Some pid
                ∧ current_player_id g' = Some pid'
                ∧ pid + pid' = 3.
Proof.
  intros Hinv Hst Hmove Hnf.
  pose proof (invariant_make_move g n1 n2 Hinv) as Hinv'.
  rewrite Hmove in Hinv'. simpl in Hinv'.
  assert (Hidx : current_player_index g' = 1 - current_player_index g
                 ∧ game_state g' = PLAYING).
  { destruct (make_move_playing g n1 n2 Hinv Hst)
      as (i & p & _ & _ & _ & _ & [[_ Hm]|[(_ & _ & Hm)|(_ & _ & Hm)]]);
      rewrite Hm in Hmove; [done| |]; injection Hmove as <-; [done|].
    by split. }
  destruct Hidx as [Hidx Hst']. split; [done|].
  destruct (get_current_player_playing g Hinv Hst)
    as (i & p & Hcur & Hi & _ & Hid & _).
  destruct (get_current_player_playing g' Hinv' Hst')
    as (i' & p' & Hcur' & Hi' & _ & Hid' & _).
  exists (Player.player_id p), (Player.player_id p').
  unfold current_player_id. rewrite Hcur, Hcur'.
  split; [done|]. split; [done|]. lia.
Qed.

(** *** Runs without a second [start_game] *)

Lemma turn_of_S (n : nat) : turn_of (S n) = 1 - turn_of n.
Proof.
  unfold turn_of. rewrite Nat.even_succ, <- Nat.negb_even.
  by destruct (Nat.even n).
Qed.

Lemma played_reachable (g : t) : played g → reachable g.
Proof.
  induction 1 as [g Hr _ _| | | |]; [done|..].
  - by apply reach_add_player.
  - by apply reach_make_move.
  - by apply reach_undo_last_move.
  - by apply reach_reset_game.
Qed.

Lemma in_step_add_player (g : t) name color ty :
  in_step g → in_step (add_player g name color ty).2.
Proof.
  unfold add_player.
  by destruct (2 <=? Z.of_nat (length (players g))).
Qed.

Lemma in_step_make_move (g : t) (n1 n2 : Board.Node) :
  invariant g → in_step g → in_step (make_move g n1 n2).2.
Proof.
  intros Hinv Hstep.
  destruct (decide (game_state g = PLAYING)) as [Hst|Hst];
    [|by rewrite make_move_not_playing].
  destruct Hstep as [Hturn Hhist]; [by rewrite Hst|].
  destruct (make_move_playing g n1 n2 Hinv Hst)
    as (i & p & Hidx & _ & Hid & _ & [[_ ->]|[(_ & _ & ->)|(_ & _ & ->)]]);
    intros Hnf; fields; fields in Hnf; [by split|done|].
  rewrite length_app, Nat.add_1_r, turn_of_S, Hturn. split; [done|].
  intros k m [Hk|[Hk Hm]]%lookup_app_Some; [by apply Hhist|].
  apply list_lookup_singleton_Some in Hm as [Hk' <-]. fields.
  replace k with (length (move_history g)) by lia.
  cbn [snd]. rewrite Hid, <- Hidx, Hturn. done.
Qed.

Lemma in_step_undo_last_move (g : t) :
  invariant g → in_step g → in_step (undo_last_move g).2.
Proof.
  intros Hinv Hstep.
  destruct (decide (move_history g = [])) as [Hnil|Hne];
    [by rewrite undo_last_move_refused by (by left)|].
  destruct (decide (game_state g = FINISHED)) as [Hfin|Hst];
    [by rewrite undo_last_move_refused by (by right)|].
  destruct (Hstep Hst) as [Hturn Hhist].
  destruct (undo_last_move_playing g Hinv Hne Hst) as (h & m & Hh & ->).
  intros _. fields. rewrite Hh, length_app, Nat.add_1_r, turn_of_S in Hturn.
  split; [lia|].
  intros k m' Hk. apply Hhist. rewrite Hh. by apply lookup_app_l_Some.
Qed.

Lemma played_in_step (g : t) : played g → in_step g.
Proof.
  induction 1 as [g Hr Hnil Hidx|g name color ty Hp IH|g n1 n2 Hp IH
                  |g Hp IH|g Hp IH].
  - intros _. rewrite Hnil, Hidx. split; [done|]. by intros k m ?.
  - by apply in_step_add_player.
  - apply in_step_make_move; [|done].
    by apply reachable_invariant, played_reachable.
  - apply in_step_undo_last_move; [|done].
    by apply reachable_invariant, played_reachable.
  - intros _. split; [done|]. by intros k m ?.
Qed.

(** In such a run a successful undo hands the turn to the player who made
    the move it takes back. *)
Lemma undo_turn_is_mover (g g' : t) :
  played g → undo_last_move g = (Returns true, g') →
  ∃ m, last (move_history g) = Some m ∧ current_player_id g' = Some m.2.
Proof.
  intros Hp Hundo.
  pose proof (reachable_invariant g (played_reachable g Hp)) as Hinv.
  pose proof (invariant_undo_last_move g Hinv) as Hinv'.
  pose proof (played_in_step g Hp) as Hstep.
  destruct (decide (move_history g = [])) as [Hnil|Hne];
    [by rewrite undo_last_move_refused in Hundo by (by left)|].
  destruct (decide (game_state g = FINISHED)) as [Hfin|Hst];
    [by rewrite undo_last_move_refused in Hundo by (by right)|].
  destruct (Hstep Hst) as [Hturn Hhist].
  destruct (undo_last_move_playing g Hinv Hne Hst) as (h & m & Hh & Hu).
  rewrite Hu in Hundo, Hinv'. injection Hundo as <-. fields in Hinv'.
  exists m. split; [by rewrite Hh, last_snoc|].
  assert (Hplaying : game_state g = PLAYING).
  { pose proof (history_started g Hinv Hne). by destruct (game_state g). }
  destruct (get_current_player_playing _ Hinv')
    as (i & p & Hcur & Hidx & _ & Hid & _); [done|].
  unfold current_player_id. rewrite Hcur. f_equal.
  fields in Hidx. rewrite Hid, <- Hidx, Hturn.
  rewrite (Hhist (length h) m) by (rewrite Hh; apply list_lookup_middle; done).
  rewrite Hh, length_app, Nat.add_1_r, turn_of_S. lia.
Qed.

End Finished.

(** C4 fails on [start_game]: the game of [game_3x3_won] is finished with
    player 1 (position 0) as winner, [make_move] and [undo_last_move] refuse
    it, yet [start_game] returns [True] and the phase is [PLAYING] again,
    with the winner, the board and the history of the finished game still in
    place, so that the next move is accepted. *)
Theorem start_game_reopens_finished_game :
  Game.game_state game_3x3_won = Game.FINISHED
  ∧ Game.winner game_3x3_won = Some 0%nat
  ∧ Game.make_move game_3x3_won (1, 1) (1, 2)
    = (Game.Returns false, game_3x3_won)
  ∧ Game.undo_last_move game_3x3_won = (Game.Returns false, game_3x3_won)
  ∧ (Game.start_game game_3x3_won).1 = true
  ∧ Game.game_state (Game.start_game game_3x3_won).2 = Game.PLAYING
  ∧ Game.winner (Game.start_game game_3x3_won).2 = Some 0%nat
  ∧ Game.board (Game.start_game game_3x3_won).2 = Game.board game_3x3_won
  ∧ Game.move_history (Game.start_game game_3x3_won).2
    = Game.move_history game_3x3_won
  ∧ (Game.make_move (Game.start_game game_3x3_won).2 (1, 1) (1, 2)).1
    = Game.Returns true.
Proof. repeat split; vm_compute; reflexivity. Qed.

(** C6 fails once [start_game] is called again.  After player 1's first
    move a second [start_game] succeeds and gives the turn back to player 1;
    the undo that follows takes back player 1's move and leaves the turn with
    player 2.  The same happens after a win: [start_game] reopens the
    finished game, the undo takes back player 1's winning move and the turn
    goes to player 2. *)
Theorem undo_after_start_game_turn_not_mover :
  (current_player_id game_3x3 = Some 1
   ∧ last (Game.move_history game_3x3_one_move) = Some ((0, 0), (1, 0), 1)
   ∧ current_player_id game_3x3_one_move = Some 2
   ∧ (Game.start_game game_3x3_one_move).1 = true
   ∧ current_player_id (Game.start_game game_3x3_one_move).2 = Some 1
   ∧ (Game.undo_last_move (Game.start_game game_3x3_one_move).2).1
     = Game.Returns true
   ∧ current_player_id
       (Game.undo_last_move (Game.start_game game_3x3_one_move).2).2
     = Some 2)
  ∧ (last (Game.move_history game_3x3_won) = Some ((1, 0), (2, 0), 1)
     ∧ (Game.start_game game_3x3_won).1 = true
     ∧ (Game.undo_last_move (Game.start_game game_3x3_won).2).1
       = Game.Returns true
     ∧ current_player_id
         (Game.undo_last_move (Game.start_game game_3x3_won).2).2
       = Some 2).
Proof. repeat split; vm_compute; reflexivity. Qed.

(** ** More about the board *)

Section BoardQueries.
Import Board.

Lemma in_bounds_cond (b : t) (r c : Z) :
  (0 <=? r) && (r <? rows b) && (0 <=? c) && (c <? cols b) = true
  ↔ in_bounds b (r, c).
Proof.
  unfold in_bounds. simpl.
  rewrite !andb_true_iff, !Z.leb_le, !Z.ltb_lt. lia.
Qed.

Lemma get_neighbors_sublist (b : t) (row col : Z) :
  sublist (get_neighbors b (row, col))
          [(row + -1, col + 0); (row + 1, col + 0);
           (row + 0, col + -1); (row + 0, col + 1)].
Proof.
  unfold get_neighbors, directions. simpl.
  repeat match goal with
         | |- context [if ?c then _ else _] => destruct c
         end;
    repeat first [apply sublist_nil | apply sublist_skip | apply sublist_cons].
Qed.

Lemma NoDup_candidates (row col : Z) :
  NoDup [(row + -1, col + 0); (row + 1, col + 0);
         (row + 0, col + -1); (row + 0, col + 1)].
Proof.
  repeat (apply NoDup_cons; split;
          [rewrite ?elem_of_cons, elem_of_nil; intros H;
           repeat (destruct H as [H|H]; [injection H; lia|]); done|]).
  apply NoDup_nil_2.
Qed.

Lemma get_neighbors_back (b : t) (u v : Node) :
  in_bounds b u → v ∈ get_neighbors b u → u ∈ get_neighbors b v.
Proof.
  rewrite !elem_of_get_neighbors. intros Hu [Hadj Hv].
  split; [by apply adjacent_sym|done].
Qed.

(** Which pairs are keys of a board with the keys of its constructor. *)
Lemma grid_key_iff (b : t) (u v : Node) :
  on_grid b →
  is_Some (edges b !! _normalize_edge u v)
  ↔ adjacent u v ∧ in_bounds b u ∧ in_bounds b v.
Proof.
  intros Hgrid. split; [by apply on_grid_key|].
  intros (Hadj & Hu & Hv).
  apply elem_of_dom. rewrite Hgrid, dom_new, elem_of_list_to_set.
  apply elem_of_initial_edges.
  destruct u as [r c], v as [r' c']. unfold adjacent, in_bounds in *.
  simpl in *.
  assert (Hcases : (r' = r ∧ c' = c + 1) ∨ (r' = r ∧ c' = c - 1)
                   ∨ (r' = r + 1 ∧ c' = c) ∨ (r' = r - 1 ∧ c' = c)) by lia.
  destruct Hcases as [[-> ->]|[[-> Hc]|[[-> ->]|[Hr ->]]]].
  - exists r, c. rewrite _normalize_edge_right.
    split; [lia|]. split; [lia|]. left. split; [lia|done].
  - assert (c = c' + 1) as -> by lia.
    exists r, c'. rewrite _normalize_edge_comm, _normalize_edge_right.
    split; [lia|]. split; [lia|]. left. split; [lia|done].
  - exists r, c. rewrite _normalize_edge_down.
    split; [lia|]. split; [lia|]. right. split; [lia|done].
  - assert (r = r' + 1) as -> by lia.
    exists r', c. rewrite _normalize_edge_comm, _normalize_edge_down.
    split; [lia|]. split; [lia|]. right. split; [lia|done].
Qed.

Lemma are_adjacent_nodes_spec (u v : Node) :
  Utils.are_adjacent_nodes u v = true ↔ adjacent u v.
Proof.
  destruct u as [r1 c1], v as [r2 c2]. unfold Utils.are_adjacent_nodes, adjacent.
  simpl.
  destruct (Z.eqb_spec r1 r2), (Z.eqb_spec (Z.abs (c1 - c2)) 1),
    (Z.eqb_spec c1 c2), (Z.eqb_spec (Z.abs (r1 - r2)) 1); simpl;
    split; first [done | lia].
Qed.

Lemma get_edge_state_lookup (b : t) (u v : Node) (s : EdgeState) :
  edges b !! _normalize_edge u v = Some s → get_edge_state b u v = s.
Proof. unfold get_edge_state. by intros ->. Qed.

End BoardQueries.

(** X1: [get_neighbors] lists, without repetition, the grid nodes next to a node
    that lie on the board, at most four of them, whether or not the node
    itself is on the board; between two nodes of the board it is symmetric. *)
Theorem get_neighbors_spec (b : Board.t) (u : Board.Node) :
  NoDup (Board.get_neighbors b u)
  ∧ (length (Board.get_neighbors b u) ≤ 4)%nat
  ∧ (∀ v, v ∈ Board.get_neighbors b u ↔ adjacent u v ∧ in_bounds b v)
  ∧ (in_bounds b u →
     ∀ v, v ∈ Board.get_neighbors b u → u ∈ Board.get_neighbors b v).
Proof.
  destruct u as [row col].
  pose proof (get_neighbors_sublist b row col) as Hsub.
  split; [exact (sublist_NoDup _ _ (NoDup_candidates row col) Hsub)|].
  split; [apply sublist_length in Hsub; exact Hsub|].
  split; [intros v; apply elem_of_get_neighbors|].
  intros Hu v. by apply get_neighbors_back.
Qed.

Lemma get_neighbors_spec_witness :
  in_bounds (Board.new 3 3) (0, 0)
  ∧ (1, 0) ∈ Board.get_neighbors (Board.new 3 3) (0, 0)
  ∧ (0, 0) ∈ Board.get_neighbors (Board.new 3 3) (1, 0).
Proof.
  assert (H1 : in_bounds (Board.new 3 3) (0, 0)).
  { unfold in_bounds. simpl. lia. }
  assert (H2 : (1, 0) ∈ Board.get_neighbors (Board.new 3 3) (0, 0)).
  { apply elem_of_get_neighbors. unfold adjacent, in_bounds. simpl. lia. }
  split; [exact H1|]. split; [exact H2|].
  destruct (get_neighbors_spec (Board.new 3 3) (0, 0)) as (_ & _ & _ & H).
  exact (H H1 (1, 0) H2).
Defined.

(** X2: On a board with the keys of its constructor the dictionary holds an
    edge between two nodes exactly when [are_adjacent_nodes] accepts the pair
    and both nodes are in bounds, that is, when the second is among
    [get_neighbors] of the first and the first is on the board; and a move is
    valid exactly when in addition the edge reads [EMPTY]. *)
Theorem stored_edges_are_adjacent_pairs (b : Board.t) (u v : Board.Node) :
  on_grid b →
  (is_Some (Board.edges b !! Board._normalize_edge u v)
   ↔ Utils.are_adjacent_nodes u v = true ∧ in_bounds b u ∧ in_bounds b v)
  ∧ (is_Some (Board.edges b !! Board._normalize_edge u v)
     ↔ in_bounds b u ∧ v ∈ Board.get_neighbors b u)
  ∧ (Board.is_valid_move b u v = true
     ↔ Utils.are_adjacent_nodes u v = true ∧ in_bounds b u ∧ in_bounds b v
       ∧ Board.get_edge_state b u v = Board.EMPTY).
Proof.
  intros Hgrid.
  assert (H1 : is_Some (Board.edges b !! Board._normalize_edge u v)
               ↔ Utils.are_adjacent_nodes u v = true
                 ∧ in_bounds b u ∧ in_bounds b v).
  { rewrite are_adjacent_nodes_spec. by apply grid_key_iff. }
  split; [exact H1|]. split.
  - rewrite H1, are_adjacent_nodes_spec, elem_of_get_neighbors. tauto.
  - rewrite is_valid_move_spec. split.
    + intros He. assert (Hs : is_Some (Board.edges b !! Board._normalize_edge u v))
        by (rewrite He; eauto).
      apply H1 in Hs as (? & ? & ?). do 3 (split; [done|]).
      by apply get_edge_state_lookup.
    + intros (Ha & Hu & Hv & Hst).
      destruct (proj2 H1 (conj Ha (conj Hu Hv))) as [s Hs].
      rewrite Hs. f_equal. apply get_edge_state_lookup in Hs. congruence.
Qed.

Lemma stored_edges_are_adjacent_pairs_witness :
  on_grid (Board.new 3 4)
  ∧ (Board.is_valid_move (Board.new 3 4) (2, 3) (2, 2) = true
     ↔ Utils.are_adjacent_nodes (2, 3) (2, 2) = true
       ∧ in_bounds (Board.new 3 4) (2, 3) ∧ in_bounds (Board.new 3 4) (2, 2)
       ∧ Board.get_edge_state (Board.new 3 4) (2, 3) (2, 2) = Board.EMPTY).
Proof.
  assert (H : on_grid (Board.new 3 4)) by apply on_grid_new.
  split; [exact H|].
  exact (proj2 (proj2 (stored_edges_are_adjacent_pairs
                         (Board.new 3 4) (2, 3) (2, 2) H))).
Defined.

(** X3: The order in which the two nodes of an edge are given makes no
    difference to [is_valid_move], [get_edge_state] and [place_bridge]. *)
Theorem node_order_is_irrelevant (b : Board.t) (u v : Board.Node) (player : Z) :
  Board.is_valid_move b u v = Board.is_valid_move b v u
  ∧ Board.get_edge_state b u v = Board.get_edge_state b v u
  ∧ Board.place_bridge b u v player = Board.place_bridge b v u player.
Proof.
  unfold Board.place_bridge, Board.is_valid_move, Board.get_edge_state.
  by rewrite (_normalize_edge_comm u v).
Qed.

(** X4: [get_edge_state] does not tell a missing edge from an empty one: it
    reads [EMPTY] both for every pair [is_valid_move] accepts and for every
    pair the dictionary has no key for, which [is_valid_move] and
    [place_bridge] refuse. *)
Theorem get_edge_state_default (b : Board.t) (u v : Board.Node) (player : Z) :
  (Board.is_valid_move b u v = true → Board.get_edge_state b u v = Board.EMPTY)
  ∧ (Board.edges b !! Board._normalize_edge u v = None →
     Board.get_edge_state b u v = Board.EMPTY
     ∧ Board.is_valid_move b u v = false
     ∧ Board.place_bridge b u v player = (false, b)).
Proof.
  split.
  - intros Hv. apply is_valid_move_spec in Hv. by apply get_edge_state_lookup.
  - intros Hnone.
    assert (Hpb : Board.place_bridge b u v player = (false, b))
      by (apply place_bridge_false; by rewrite Hnone).
    unfold Board.get_edge_state, Board.is_valid_move. by rewrite Hnone.
Qed.

Lemma get_edge_state_default_witness :
  Board.edges (Board.new 3 3) !! Board._normalize_edge (0, 0) (2, 2) = None
  ∧ Board.get_edge_state (Board.new 3 3) (0, 0) (2, 2) = Board.EMPTY
  ∧ Board.is_valid_move (Board.new 3 3) (0, 0) (2, 2) = false.
Proof.
  assert (H : Board.edges (Board.new 3 3) !! Board._normalize_edge (0, 0) (2, 2)
              = None) by (vm_compute; reflexivity).
  split; [exact H|].
  destruct (get_edge_state_default (Board.new 3 3) (0, 0) (2, 2) 1)
    as (_ & Hd).
  destruct (Hd H) as (H1 & H2 & _). split; [exact H1|exact H2].
Defined.

Section BoardPaths.
Import Board.

Lemma get_player_edges_new (rows cols player : Z) :
  get_player_edges (new rows cols) player = ∅.
Proof.
  apply set_eq. intros e. rewrite get_player_edges_spec. split.
  - intros He. apply new_all_empty in He.
    by apply player_state_not_empty in He.
  - by intros ?%not_elem_of_empty.
Qed.

Lemma get_player_edges_disjoint (b : t) (p q : Z) :
  player_state p ≠ player_state q →
  get_player_edges b p ## get_player_edges b q.
Proof.
  intros Hne e Hp Hq. apply get_player_edges_spec in Hp, Hq.
  rewrite Hp in Hq. by injection Hq.
Qed.

(** A board that keeps its size and every edge of player [q] keeps the
    winning paths of [q]. *)
Lemma has_winning_path_mono (b b' : t) (q : Z) :
  rows b' = rows b → cols b' = cols b →
  (∀ e, edges b !! e = Some (player_state q) →
        edges b' !! e = Some (player_state q)) →
  has_winning_path b q = true → has_winning_path b' q = true.
Proof.
  intros Hr Hc Hedges.
  rewrite (proj2 (has_winning_path_opt_spec b q)),
    (proj2 (has_winning_path_opt_spec b' q)).
  intros (s & t & Hs & Ht & Hpath). exists s, t.
  assert (Hstart : start_nodes b' q = start_nodes b q)
    by (unfold start_nodes; by rewrite Hr, Hc).
  assert (Hend : end_nodes b' q = end_nodes b q)
    by (unfold end_nodes; by rewrite Hr, Hc).
  rewrite Hstart, Hend. split; [done|]. split; [done|].
  eapply rtc_subrel; [|exact Hpath].
  intros u v (Hadj & Hv & He). split; [done|]. split; [|by apply Hedges].
  unfold in_bounds in *. by rewrite Hr, Hc.
Qed.

(** A path that starts at or above row [r] and ends below it crosses an
    own edge from row [r] to row [r + 1]. *)
Lemma path_crosses_row (b : t) (p : Z) (u v : Node) (r : Z) :
  rtc (owned_step b p) u v → u.1 ≤ r → r < v.1 →
  ∃ e, e ∈ get_player_edges b p ∧ e.1.1 = r.
Proof.
  induction 1 as [x|x y z Hxy Hyz IH]; intros Hu Hv; [lia|].
  destruct (decide (y.1 ≤ r)) as [Hy|Hy]; [by apply IH|].
  destruct Hxy as (Hadj & _ & He).
  destruct x as [xr xc], y as [yr yc]. unfold adjacent in Hadj. simpl in *.
  assert (yr = xr + 1 ∧ yc = xc ∧ xr = r) as (-> & -> & ->) by lia.
  rewrite _normalize_edge_down in He.
  exists ((r, xc), (r + 1, xc)). split; [by apply get_player_edges_spec|done].
Qed.

Lemma path_crosses_col (b : t) (p : Z) (u v : Node) (c : Z) :
  rtc (owned_step b p) u v → u.2 ≤ c → c < v.2 →
  ∃ e, e ∈ get_player_edges b p ∧ e.1.2 = c.
Proof.
  induction 1 as [x|x y z Hxy Hyz IH]; intros Hu Hv; [lia|].
  destruct (decide (y.2 ≤ c)) as [Hy|Hy]; [by apply IH|].
  destruct Hxy as (Hadj & _ & He).
  destruct x as [xr xc], y as [yr yc]. unfold adjacent in Hadj. simpl in *.
  assert (yc = xc + 1 ∧ yr = xr ∧ xc = c) as (-> & -> & ->) by lia.
  rewrite _normalize_edge_right in He.
  exists ((xr, c), (xr, c + 1)). split; [by apply get_player_edges_spec|done].
Qed.

(** A set with an element for each of [n] keys has at least [n] elements. *)
Lemma size_by_keys (X : gset Edge) (key : Edge → Z) (n : nat) :
  (∀ r, 0 ≤ r < Z.of_nat n → ∃ e, e ∈ X ∧ key e = r) → (n ≤ size X)%nat.
Proof.
  intros Hkeys.
  assert (Hsub : ∀ k, (k ≤ n)%nat →
            ∃ Y : gset Edge, Y ⊆ X ∧ size Y = k
                             ∧ ∀ e, e ∈ Y → key e < Z.of_nat k).
  { induction k as [|k IH]; intros Hk.
    - exists ∅. split; [set_solver|]. split; [apply size_empty|].
      by intros e ?%not_elem_of_empty.
    - destruct IH as (Y & HY & Hsize & Hlt); [lia|].
      destruct (Hkeys (Z.of_nat k)) as (e & He & Hkey); [lia|].
      assert (e ∉ Y) by (intros Hin; apply Hlt in Hin; lia).
      exists ({[e]} ∪ Y). split; [set_solver|]. split.
      + rewrite size_union by set_solver. rewrite size_singleton, Hsize. done.
      + intros e' [->%elem_of_singleton|Hin]%elem_of_union; [lia|].
        apply Hlt in Hin. lia. }
  destruct (Hsub n) as (Y & HY & Hsize & _); [done|].
  rewrite <- Hsize. by apply subseteq_size.
Qed.

Lemma no_edges_no_win (b : t) :
  rows b ≠ 1 → cols b ≠ 1 →
  get_player_edges b 1 = ∅ → get_player_edges b 2 = ∅ → undecided b.
Proof.
  intros Hr Hc H1 H2. split; apply Bool.not_true_iff_false.
  - rewrite has_winning_path_1. intros (c & c' & _ & _ & Hpath).
    apply no_edges_path_trivial in Hpath; [|done].
    injection Hpath as Hrow _. lia.
  - rewrite has_winning_path_2 by done. intros (r & r' & _ & _ & Hpath).
    apply no_edges_path_trivial in Hpath; [|done].
    injection Hpath as _ Hcol. lia.
Qed.

End BoardPaths.

(** X5: The edge sets of the two players are disjoint and empty on a new
    board; a successful [place_bridge] adds the normalised edge, which was in
    neither set, to the set of the placing player and leaves the set of the
    other player as it was. *)
Theorem get_player_edges_after_place_bridge
    (b : Board.t) (u v : Board.Node) (player : Z) :
  Board.get_player_edges b 1 ## Board.get_player_edges b 2
  ∧ (∀ rows cols, Board.get_player_edges (Board.new rows cols) player = ∅)
  ∧ (Board.is_valid_move b u v = true →
     let b' := (Board.place_bridge b u v player).2 in
     (Board._normalize_edge u v ∉ Board.get_player_edges b 1)
     ∧ (Board._normalize_edge u v ∉ Board.get_player_edges b 2)
     ∧ Board.get_player_edges b' player
       = {[Board._normalize_edge u v]} ∪ Board.get_player_edges b player
     ∧ ∀ q, Board.player_state q ≠ Board.player_state player →
            Board.get_player_edges b' q = Board.get_player_edges b q).
Proof.
  split; [by apply get_player_edges_disjoint|].
  split; [intros rows cols; apply get_player_edges_new|].
  intros Hvalid b'. subst b'. apply is_valid_move_spec in Hvalid.
  rewrite (place_bridge_true _ _ _ _ Hvalid). simpl.
  assert (Hfree : ∀ q, Board._normalize_edge u v ∉ Board.get_player_edges b q).
  { intros q Hin. apply get_player_edges_spec in Hin.
    rewrite Hvalid in Hin. injection Hin as Hin. symmetry in Hin.
    by apply player_state_not_empty in Hin. }
  split; [apply Hfree|]. split; [apply Hfree|]. split.
  - apply set_eq. intros e.
    rewrite elem_of_union, elem_of_singleton, !get_player_edges_spec. simpl.
    destruct (decide (e = Board._normalize_edge u v)) as [->|Hne].
    + rewrite lookup_insert_eq. split; [by left|done].
    + rewrite lookup_insert_ne by done. split; [by right|].
      by intros [?|?].
  - intros q Hq. apply set_eq. intros e.
    rewrite !get_player_edges_spec. simpl.
    destruct (decide (e = Board._normalize_edge u v)) as [->|Hne].
    + rewrite lookup_insert_eq, Hvalid. split; intros [= H]; [done|].
      symmetry in H. by apply player_state_not_empty in H.
    + by rewrite lookup_insert_ne.
Qed.

Lemma get_player_edges_after_place_bridge_witness :
  Board.is_valid_move (Board.new 3 3) (1, 1) (0, 1) = true
  ∧ Board.get_player_edges
      (Board.place_bridge (Board.new 3 3) (1, 1) (0, 1) 2).2 2
    = {[Board._normalize_edge (1, 1) (0, 1)]}
      ∪ Board.get_player_edges (Board.new 3 3) 2.
Proof.
  assert (H : Board.is_valid_move (Board.new 3 3) (1, 1) (0, 1) = true)
    by (vm_compute; reflexivity).
  split; [exact H|].
  destruct (get_player_edges_after_place_bridge (Board.new 3 3) (1, 1) (0, 1) 2)
    as (_ & _ & Hp).
  destruct (Hp H) as (_ & _ & Heq & _). exact Heq.
Defined.



(** X7: A winning path of player 1 takes at least [rows - 1] edges of player 1
    (one from each row to the next), a winning path of player 2 at least
    [cols - 1] edges of player 2. *)
Theorem winning_path_needs_edges (b : Board.t) :
  (Board.has_winning_path b 1 = true →
   Board.rows b - 1 ≤ Z.of_nat (size (Board.get_player_edges b 1)))
  ∧ (Board.has_winning_path b 2 = true →
     Board.cols b - 1 ≤ Z.of_nat (size (Board.get_player_edges b 2))).
Proof.
  split.
  - intros Hwin. apply has_winning_path_1 in Hwin as (c & c' & _ & _ & Hpath).
    assert (Z.to_nat (Board.rows b - 1)
            ≤ size (Board.get_player_edges b 1))%nat; [|lia].
    apply (size_by_keys _ (λ e, e.1.1)). intros r Hr.
    eapply path_crosses_row; [exact Hpath|simpl; lia|simpl; lia].
  - intros Hwin.
    apply has_winning_path_2 in Hwin as (r & r' & _ & _ & Hpath); [|done].
    assert (Z.to_nat (Board.cols b - 1)
            ≤ size (Board.get_player_edges b 2))%nat; [|lia].
    apply (size_by_keys _ (λ e, e.1.2)). intros c Hc.
    eapply path_crosses_col; [exact Hpath|simpl; lia|simpl; lia].
Qed.

Lemma winning_path_needs_edges_witness :
  Board.has_winning_path (Game.board game_3x3_won) 1 = true
  ∧ Board.rows (Game.board game_3x3_won) - 1
    ≤ Z.of_nat (size (Board.get_player_edges (Game.board game_3x3_won) 1)).
Proof.
  assert (H : Board.has_winning_path (Game.board game_3x3_won) 1 = true)
    by (vm_compute; reflexivity).
  split; [exact H|].
  exact (proj1 (winning_path_needs_edges (Game.board game_3x3_won)) H).
Defined.

(** X8: [validate_board_size] accepts exactly the sizes from 3 to 20 in both
    directions; a new board of such a size has between 12 and 760 edges and
    no winning path for either player. *)
Theorem validated_board_starts_undecided (rows cols : Z) :
  (Utils.validate_board_size rows cols = true
   ↔ 3 ≤ rows ≤ 20 ∧ 3 ≤ cols ≤ 20)
  ∧ (Utils.validate_board_size rows cols = true →
     undecided (Board.new rows cols)
     ∧ 12 ≤ Z.of_nat (size (Board.edges (Board.new rows cols))) ≤ 760).
Proof.
  assert (Hv : Utils.validate_board_size rows cols = true
               ↔ 3 ≤ rows ≤ 20 ∧ 3 ≤ cols ≤ 20).
  { unfold Utils.validate_board_size.
    rewrite !andb_true_iff, !Z.leb_le. lia. }
  split; [exact Hv|]. intros H. apply Hv in H as [Hr Hc]. split.
  - apply no_edges_no_win; simpl; try lia; apply get_player_edges_new.
  - rewrite edge_count by lia. nia.
Qed.

Lemma validated_board_starts_undecided_witness :
  Utils.validate_board_size 6 6 = true ∧ undecided (Board.new 6 6).
Proof.
  assert (H : Utils.validate_board_size 6 6 = true) by reflexivity.
  split; [exact H|].
  exact (proj1 (proj2 (validated_board_starts_undecided 6 6) H)).
Defined.

(** ** More about the engine *)

Section Bookkeeping.
Import Game.

Lemma moves_by_snoc (pid : Z) (h : list Move) (m : Move) :
  moves_by pid (h ++ [m])
  = moves_by pid h ++ (if decide (m.2 = pid) then [m] else []).
Proof.
  unfold moves_by. rewrite filter_app. f_equal.
Qed.

Lemma length_moves_by_snoc (pid : Z) (h : list Move) (m : Move) :
  length (moves_by pid (h ++ [m]))
  = (length (moves_by pid h) + (if decide (m.2 = pid) then 1 else 0))%nat.
Proof.
  rewrite moves_by_snoc, length_app. by destruct (decide (m.2 = pid)).
Qed.

Lemma bookkeeping_new (board_rows board_cols : Z) :
  bookkeeping (new board_rows board_cols).
Proof. split; simpl; [by intros i p ?|done]. Qed.

Lemma bookkeeping_add_player (g : t) name color ty :
  invariant g → bookkeeping g → bookkeeping (add_player g name color ty).2.
Proof.
  intros Hinv [Hcount Hfin]. unfold add_player.
  destruct (Z.leb_spec 2 (Z.of_nat (length (players g)))) as [|Hlt];
    [by split|].
  assert (Hsetup : game_state g = SETUP).
  { destruct (decide (game_state g = SETUP)) as [|Hne]; [done|].
    apply (inv_started g Hinv) in Hne. lia. }
  pose proof (inv_setup g Hinv Hsetup) as Hnil.
  split; simpl.
  - intros i p [Hp|[_ Hp]]%lookup_app_Some; [by eapply Hcount|].
    apply list_lookup_singleton_Some in Hp as [_ <-]. by rewrite Hnil.
  - by rewrite Hsetup.
Qed.

Lemma bookkeeping_start_game (g : t) :
  bookkeeping g → bookkeeping (start_game g).2.
Proof.
  intros [Hcount Hfin]. unfold start_game.
  destruct (negb (Z.of_nat (length (players g)) =? 2)); by split.
Qed.

Lemma bookkeeping_make_move (g : t) (n1 n2 : Board.Node) :
  invariant g → bookkeeping g → bookkeeping (make_move g n1 n2).2.
Proof.
  intros Hinv [Hcount Hfin].
  destruct (decide (game_state g = PLAYING)) as [Hst|Hst];
    [|by rewrite make_move_not_playing].
  assert (Hcount' : ∀ i p (j : nat) q,
            players g !! i = Some p → Player.player_id p = Z.of_nat i + 1 →
            <[i := Player.set_moves_made p (Player.moves_made p + 1)]>
              (players g) !! j = Some q →
            Player.moves_made q
            = Z.of_nat (length (moves_by (Player.player_id q)
                       (move_history g ++ [(n1, n2, Player.player_id p)])))).
  { intros i p j q Hp Hid Hq. rewrite length_moves_by_snoc. simpl.
    apply list_lookup_insert_Some in Hq as [(<- & <- & _)|[Hne Hq]].
    - simpl. rewrite decide_True by done. rewrite (Hcount i p Hp). lia.
    - rewrite decide_False; [rewrite (Hcount j q Hq); lia|].
      rewrite Hid, (inv_ids g Hinv j q Hq). lia. }
  destruct (make_move_playing g n1 n2 Hinv Hst)
    as (i & p & _ & Hp & Hid & _ & [[_ ->]|[(_ & Hwin & ->)|(_ & _ & ->)]]);
    fields; [by split| |].
  - split; fields; [intros j q; by apply Hcount'|].
    intros _.
    eexists i, _, (move_history g), (n1, n2, Player.player_id p).
    split; [done|].
    split; [apply list_lookup_insert_eq; by eapply lookup_lt_Some|].
    split; [done|]. split; [done|exact Hwin].
  - split; fields; [intros j q; by apply Hcount'|].
    by rewrite Hst.
Qed.

Lemma bookkeeping_undo_last_move (g : t) :
  invariant g → bookkeeping g → bookkeeping (undo_last_move g).2.
Proof.
  intros Hinv [Hcount Hfin].
  destruct (decide (move_history g = [])) as [Hnil|Hne];
    [by rewrite undo_last_move_refused by (by left)|].
  destruct (decide (game_state g = FINISHED)) as [Hdone|Hst];
    [by rewrite undo_last_move_refused by (by right)|].
  destruct (undo_last_move_playing g Hinv Hne Hst) as (h & m & Hh & ->).
  destruct (two_players g Hinv) as (p1 & p2 & Hps & Hid1 & Hid2);
    [by apply history_started|].
  assert (Hm : m.2 = 1 ∨ m.2 = 2).
  { apply (inv_history g Hinv). rewrite Hh. apply elem_of_app. right.
    by apply list_elem_of_singleton. }
  pose proof (Hcount 0%nat p1) as Hc1. pose proof (Hcount 1%nat p2) as Hc2.
  rewrite Hps, Hh, length_moves_by_snoc in Hc1, Hc2. simpl in Hc1, Hc2.
  specialize (Hc1 eq_refl). specialize (Hc2 eq_refl).
  rewrite Hid1 in Hc1. rewrite Hid2 in Hc2.
  split; fields; [|done].
  rewrite Hps. simpl. rewrite Hid1, Hid2.
  destruct Hm as [Hm|Hm]; rewrite Hm in *; simpl;
    intros [|[|i]] p Hp; simpl in Hp; try done; injection Hp as <-; simpl;
    rewrite ?Hid1, ?Hid2;
    repeat match goal with
           | H : context [decide ?P] |- _ => destruct (decide P); try lia
           end.
Qed.

Lemma bookkeeping_reset_game (g : t) : bookkeeping (reset_game g).
Proof.
  split; simpl.
  - intros i p Hp. apply list_lookup_fmap_Some in Hp as (q & -> & _). done.
  - by destruct (negb (Z.of_nat (length (players g)) =? 2)).
Qed.

Lemma reachable_bookkeeping (g : t) : reachable g → bookkeeping g.
Proof.
  induction 1 as [| g ? ? ? Hr IH | g Hr IH | g ? ? Hr IH | g Hr IH | g Hr IH].
  - apply bookkeeping_new.
  - apply bookkeeping_add_player; [by apply reachable_invariant|done].
  - by apply bookkeeping_start_game.
  - apply bookkeeping_make_move; [by apply reachable_invariant|done].
  - apply bookkeeping_undo_last_move; [by apply reachable_invariant|done].
  - apply bookkeeping_reset_game.
Qed.

Lemma NoDup_fmap_filter {A B} (f : A → B) (P : A → Prop)
    `{∀ x, Decision (P x)} (l : list A) :
  NoDup (f <$> l) → NoDup (f <$> filter P l).
Proof.
  induction l as [|x l IH]; [done|].
  rewrite fmap_cons, NoDup_cons. intros [Hx Hl].
  rewrite filter_cons. destruct (decide (P x)); [|by apply IH].
  rewrite fmap_cons. apply NoDup_cons. split; [|by apply IH].
  intros (y & Hy & Hin)%list_elem_of_fmap. apply Hx.
  apply list_elem_of_fmap. exists y. split; [done|].
  by apply list_elem_of_filter in Hin as [_ ?].
Qed.

(** The edges a player owns are the edges of that player's recorded
    moves. *)
Lemma player_edges_history (g : t) (pid : Z) :
  invariant g → pid = 1 ∨ pid = 2 →
  Board.get_player_edges (board g) pid
  = list_to_set (move_edge <$> moves_by pid (move_history g))
  ∧ size (Board.get_player_edges (board g) pid)
    = length (moves_by pid (move_history g)).
Proof.
  intros Hinv Hpid.
  assert (Heq : Board.get_player_edges (board g) pid
                = list_to_set (move_edge <$> moves_by pid (move_history g))).
  { apply set_eq. intros e.
    rewrite get_player_edges_spec, elem_of_list_to_set, list_elem_of_fmap.
    split.
    - intros He.
      pose proof (inv_owned g Hinv e _ He (player_state_not_empty pid)) as Hin.
      apply list_elem_of_fmap in Hin as (m & -> & Hm).
      exists m. split; [done|]. apply list_elem_of_filter. split; [|done].
      destruct (inv_history g Hinv m Hm) as [Hm2 Hlook].
      rewrite Hlook in He. injection He as He.
      unfold Board.player_state in He.
      destruct Hm2 as [Hm2|Hm2], Hpid as [-> | ->]; rewrite Hm2 in *;
        simpl in He; done.
    - intros (m & -> & Hm). apply list_elem_of_filter in Hm as [<- Hm].
      by apply (inv_history g Hinv). }
  split; [done|]. rewrite Heq, size_list_to_set, length_fmap; [done|].
  apply NoDup_fmap_filter, (inv_nodup g Hinv).
Qed.

End Bookkeeping.

(** X9: In every reachable state each player's move counter is the number of
    that player's moves in the history, which is also the number of edges
    the player owns on the board. *)
Theorem counter_is_own_moves_and_edges (g : Game.t) (i : nat) (p : Player.t) :
  Game.reachable g → Game.players g !! i = Some p →
  Player.moves_made p
  = Z.of_nat (length (moves_by (Player.player_id p) (Game.move_history g)))
  ∧ Player.moves_made p
    = Z.of_nat (size (Board.get_player_edges (Game.board g)
                        (Player.player_id p))).
Proof.
  intros Hreach Hp.
  pose proof (reachable_invariant g Hreach) as Hinv.
  pose proof (book_counter g (reachable_bookkeeping g Hreach) i p Hp) as Hc.
  split; [done|].
  destruct (player_edges_history g (Player.player_id p) Hinv) as [_ ->];
    [|done].
  pose proof (inv_ids g Hinv i p Hp) as Hid.
  pose proof (inv_at_most_two g Hinv) as Hlen.
  apply lookup_lt_Some in Hp. lia.
Qed.

Lemma counter_is_own_moves_and_edges_witness :
  Game.reachable game_3x3_won
  ∧ Player.moves_made <$> Game.players game_3x3_won !! 0%nat = Some 2
  ∧ size (Board.get_player_edges (Game.board game_3x3_won) 1) = 2%nat.
Proof.
  assert (Hp : Game.players game_3x3_won !! 0%nat
               = Some (Player.set_moves_made
                         (Player.new 1 "Player 1" "Red" Player.HUMAN) 2))
    by (vm_compute; reflexivity).
  split; [exact reachable_game_3x3_won|].
  split; [rewrite Hp; reflexivity|].
  destruct (counter_is_own_moves_and_edges game_3x3_won 0 _
              reachable_game_3x3_won Hp) as [_ H].
  cbn [Player.moves_made Player.player_id Player.set_moves_made Player.new]
    in H.
  lia.
Defined.

(** X10: A reachable finished game has a winner among its players, the last
    move of the history is the winner's, the board holds a winning path of
    the winner, and the winner has made at least [rows - 1] moves (player 1)
    or [cols - 1] moves (player 2). *)
Theorem finished_game_has_winning_path (g : Game.t) :
  Game.reachable g → Game.game_state g = Game.FINISHED →
  ∃ i p m,
    Game.winner g = Some i ∧ Game.players g !! i = Some p
    ∧ last (Game.move_history g) = Some m ∧ m.2 = Player.player_id p
    ∧ Board.has_winning_path (Game.board g) (Player.player_id p) = true
    ∧ (Player.player_id p = 1 →
       Board.rows (Game.board g) - 1 ≤ Player.moves_made p)
    ∧ (Player.player_id p = 2 →
       Board.cols (Game.board g) - 1 ≤ Player.moves_made p).
Proof.
  intros Hreach Hfin.
  pose proof (reachable_invariant g Hreach) as Hinv.
  pose proof (reachable_bookkeeping g Hreach) as Hbook.
  destruct (book_finished g Hbook Hfin) as (i & p & h & m & Hw & Hp & Hh & Hm & Hwin).
  exists i, p, m. do 2 (split; [done|]).
  split; [by rewrite Hh, last_snoc|]. do 2 (split; [done|]).
  pose proof (book_counter g Hbook i p Hp) as Hc.
  split; intros Hid; rewrite Hid in *.
  - destruct (player_edges_history g 1 Hinv) as [_ Hsize]; [by left|].
    rewrite Hc, <- Hsize.
    apply has_winning_path_1 in Hwin as (c & c' & _ & _ & Hpath).
    assert (Z.to_nat (Board.rows (Game.board g) - 1)
            ≤ size (Board.get_player_edges (Game.board g) 1))%nat; [|lia].
    apply (size_by_keys _ (λ e, e.1.1)). intros r Hr.
    eapply path_crosses_row; [exact Hpath|simpl; lia|simpl; lia].
  - destruct (player_edges_history g 2 Hinv) as [_ Hsize]; [by right|].
    rewrite Hc, <- Hsize.
    apply has_winning_path_2 in Hwin as (r & r' & _ & _ & Hpath); [|done].
    assert (Z.to_nat (Board.cols (Game.board g) - 1)
            ≤ size (Board.get_player_edges (Game.board g) 2))%nat; [|lia].
    apply (size_by_keys _ (λ e, e.1.2)). intros c Hc'.
    eapply path_crosses_col; [exact Hpath|simpl; lia|simpl; lia].
Qed.

Lemma finished_game_has_winning_path_witness :
  Game.reachable game_3x3_won
  ∧ Game.game_state game_3x3_won = Game.FINISHED
  ∧ ∃ i p m,
      Game.winner game_3x3_won = Some i
      ∧ Game.players game_3x3_won !! i = Some p
      ∧ last (Game.move_history game_3x3_won) = Some m
      ∧ m.2 = Player.player_id p.
Proof.
  assert (H : Game.game_state game_3x3_won = Game.FINISHED)
    by (vm_compute; reflexivity).
  split; [exact reachable_game_3x3_won|]. split; [exact H|].
  destruct (finished_game_has_winning_path game_3x3_won
              reachable_game_3x3_won H)
    as (i & p & m & H1 & H2 & H3 & H4 & _).
  exists i, p, m. split; [exact H1|]. split; [exact H2|].
  split; [exact H3|exact H4].
Defined.

Section Moves.
Import Game.


(** The entries of the dictionary of a board with the keys of its
    constructor, each key once. *)
Lemma elem_of_items (b : Board.t) (e : Board.Edge) (st : Board.EdgeState) :
  on_grid b → (e, st) ∈ items b ↔ Board.edges b !! e = Some st.
Proof.
  intros Hgrid. unfold items. rewrite list_elem_of_omap. split.
  - intros (e' & _ & He). destruct (Board.edges b !! e') eqn:Hl; [|done].
    simpl in He. by injection He as <- <-.
  - intros He. exists e. split; [|by rewrite He].
    assert (e ∈ dom (Board.edges b)) as Hd by (apply elem_of_dom; eauto).
    by rewrite Hgrid, dom_new, elem_of_list_to_set in Hd.
Qed.

Lemma items_keys_sublist (f : Board.Edge → option Board.EdgeState)
    (l : list Board.Edge) :
  sublist (omap (λ e, (λ s, (e, s)) <$> f e) l).*1 l.
Proof.
  induction l as [|e l IH]; [done|]. simpl.
  destruct (f e); simpl; [by apply sublist_skip|by apply sublist_cons].
Qed.

Lemma NoDup_items (b : Board.t) : NoDup (items b).*1.
Proof.
  eapply sublist_NoDup; [apply NoDup_initial_edges|].
  apply items_keys_sublist.
Qed.

Lemma length_items (b : Board.t) :
  on_grid b → length (items b) = size (Board.edges b).
Proof.
  intros Hgrid. rewrite <- size_dom, <- (length_fmap fst).
  rewrite <- (size_list_to_set (C := gset Board.Edge)) by apply NoDup_items.
  f_equal. apply set_eq. intros e.
  rewrite elem_of_list_to_set, elem_of_dom, list_elem_of_fmap. split.
  - intros ([e' st] & -> & Hin). apply elem_of_items in Hin; eauto.
  - intros [st Hst]. exists (e, st). split; [done|]. by apply elem_of_items.
Qed.

Lemma get_available_moves_filter (g : t) :
  get_available_moves g
  = (filter (λ kv, kv.2 = Board.EMPTY) (items (board g))).*1.
Proof.
  unfold get_available_moves.
  assert (H : ∀ l acc,
            foldl (λ moves '(edge, state),
                     if value state =? 0 then moves ++ [edge] else moves)
                  acc l
            = acc ++ (filter (λ kv : Board.Edge * Board.EdgeState,
                                kv.2 = Board.EMPTY) l).*1).
  { induction l as [|[e st] l IH]; intros acc; simpl.
    - by rewrite app_nil_r.
    - rewrite IH, filter_cons. destruct st; simpl; [|done|done].
      by rewrite <- app_assoc. }
  apply (H _ []).
Qed.

Lemma NoDup_fst_filter (P : Board.Edge * Board.EdgeState → Prop)
    `{∀ x, Decision (P x)} (b : Board.t) :
  NoDup (filter P (items b)).*1.
Proof. apply NoDup_fmap_filter, NoDup_items. Qed.

(** The occupied entries are the edges of the recorded moves. *)
Lemma length_occupied (g : t) :
  invariant g →
  length (filter (λ kv, ¬ kv.2 = Board.EMPTY) (items (board g)))
  = length (move_history g).
Proof.
  intros Hinv. pose proof (inv_grid g Hinv) as Hgrid.
  rewrite <- (length_fmap fst), <- (length_fmap move_edge (move_history g)).
  rewrite <- (size_list_to_set (C := gset Board.Edge))
    by apply NoDup_fst_filter.
  rewrite <- (size_list_to_set (C := gset Board.Edge) (move_edge <$> _))
    by apply (inv_nodup g Hinv).
  f_equal. apply set_eq. intros e.
  rewrite !elem_of_list_to_set, list_elem_of_fmap. split.
  - intros ([e' st] & -> & [Hne Hin]%list_elem_of_filter).
    apply elem_of_items in Hin; [|done]. by eapply (inv_owned g Hinv).
  - intros (m & -> & Hm)%list_elem_of_fmap.
    destruct (inv_history g Hinv m Hm) as [_ Hlook].
    exists (move_edge m, Board.player_state m.2). split; [done|].
    apply list_elem_of_filter. split; [apply player_state_not_empty|].
    by apply elem_of_items.
Qed.

End Moves.



(** X12: What [play_game] checks before it calls [make_move] leaves one reason
    for a refusal: in a reachable game that is [PLAYING], a pair that
    [are_adjacent_nodes] accepts and whose nodes are in bounds is refused only
    if its edge is already owned by a player, and the state is unchanged. *)
Theorem refused_checked_move_is_occupied (g : Game.t) (n1 n2 : Board.Node) :
  Game.reachable g → Game.game_state g = Game.PLAYING →
  Utils.are_adjacent_nodes n1 n2 = true →
  in_bounds (Game.board g) n1 → in_bounds (Game.board g) n2 →
  (Game.make_move g n1 n2).1 = Game.Returns false →
  (Board.get_edge_state (Game.board g) n1 n2 = Board.PLAYER1
   ∨ Board.get_edge_state (Game.board g) n1 n2 = Board.PLAYER2)
  ∧ (Game.make_move g n1 n2).2 = g.
Proof.
  intros Hreach Hst Hadj Hb1 Hb2 Hfalse.
  pose proof (reachable_invariant g Hreach) as Hinv.
  destruct (proj2 (grid_key_iff (Game.board g) n1 n2 (inv_grid g Hinv)))
    as [st Hlook]; [by rewrite <- are_adjacent_nodes_spec|].
  rewrite (get_edge_state_lookup _ _ _ _ Hlook).
  destruct (make_move_playing g n1 n2 Hinv Hst)
    as (i & p & _ & _ & _ & _ & [[He Hm]|[(_ & _ & Hm)|(_ & _ & Hm)]]);
    rewrite Hm in Hfalse |- *; [|done|done].
  split; [|done]. rewrite Hlook in He. destruct st; auto. done.
Qed.

Lemma refused_checked_move_is_occupied_witness :
  Game.reachable game_3x3_one_move
  ∧ (Game.make_move game_3x3_one_move (1, 0) (0, 0)).1 = Game.Returns false
  ∧ (Board.get_edge_state (Game.board game_3x3_one_move) (1, 0) (0, 0)
     = Board.PLAYER1
     ∨ Board.get_edge_state (Game.board game_3x3_one_move) (1, 0) (0, 0)
       = Board.PLAYER2).
Proof.
  assert (H1 : Game.game_state game_3x3_one_move = Game.PLAYING)
    by (vm_compute; reflexivity).
  assert (H2 : Utils.are_adjacent_nodes (1, 0) (0, 0) = true) by reflexivity.
  assert (H3 : in_bounds (Game.board game_3x3_one_move) (1, 0)).
  { unfold in_bounds.
    change (Board.rows (Game.board game_3x3_one_move)) with 3.
    change (Board.cols (Game.board game_3x3_one_move)) with 3. simpl. lia. }
  assert (H4 : in_bounds (Game.board game_3x3_one_move) (0, 0)).
  { unfold in_bounds.
    change (Board.rows (Game.board game_3x3_one_move)) with 3.
    change (Board.cols (Game.board game_3x3_one_move)) with 3. simpl. lia. }
  assert (H5 : (Game.make_move game_3x3_one_move (1, 0) (0, 0)).1
               = Game.Returns false) by (vm_compute; reflexivity).
  split; [exact reachable_game_3x3_one_move|]. split; [exact H5|].
  exact (proj1 (refused_checked_move_is_occupied game_3x3_one_move (1, 0) (0, 0)
                  reachable_game_3x3_one_move H1 H2 H3 H4 H5)).
Defined.

(** X13: In a reachable state [get_available_moves] lists each empty edge once,
    a pair is a valid move exactly when its normalised edge is in the list,
    and the list and the history together are as long as the number of
    edges of the board. *)
Theorem get_available_moves_spec (g : Game.t) :
  Game.reachable g →
  NoDup (get_available_moves g)
  ∧ (∀ n1 n2, Game.is_valid_move g n1 n2 = true
              ↔ Board._normalize_edge n1 n2 ∈ get_available_moves g)
  ∧ (length (get_available_moves g) + length (Game.move_history g)
     = size (Board.edges (Game.board g)))%nat.
Proof.
  intros Hreach. pose proof (reachable_invariant g Hreach) as Hinv.
  pose proof (inv_grid g Hinv) as Hgrid.
  rewrite get_available_moves_filter.
  split; [apply NoDup_fst_filter|]. split.
  - intros n1 n2. unfold Game.is_valid_move.
    rewrite is_valid_move_spec, list_elem_of_fmap. split.
    + intros He. exists (Board._normalize_edge n1 n2, Board.EMPTY).
      split; [done|]. apply list_elem_of_filter. split; [done|].
      by apply elem_of_items.
    + intros ([e st] & -> & [Hst Hin]%list_elem_of_filter).
      simpl in *. subst st. by apply elem_of_items in Hin.
  - rewrite length_fmap, <- (length_occupied g Hinv), <- (length_items _ Hgrid).
    rewrite <- length_app. apply Permutation_length, filter_app_complement.
Qed.

Lemma get_available_moves_spec_witness :
  Game.reachable game_3x3_two_moves
  ∧ length (get_available_moves game_3x3_two_moves) = 10%nat.
Proof.
  split; [exact reachable_game_3x3_two_moves|].
  destruct (get_available_moves_spec game_3x3_two_moves
              reachable_game_3x3_two_moves) as (_ & _ & H).
  assert (H1 : length (Game.move_history game_3x3_two_moves) = 2%nat)
    by (vm_compute; reflexivity).
  assert (H2 : size (Board.edges (Game.board game_3x3_two_moves)) = 12%nat)
    by (vm_compute; reflexivity).
  rewrite H1, H2 in H. lia.
Defined.

Section Setup.
Import Game.

Lemma set_moves_made_new (p : Player.t) :
  Player.set_moves_made p 0
  = Player.new (Player.player_id p) (Player.name p) (Player.color p)
               (Player.player_type p).
Proof. by destruct p. Qed.

Lemma reset_game_twice (g : t) : reset_game (reset_game g) = reset_game g.
Proof.
  unfold reset_game. simpl. rewrite length_fmap. f_equal.
  rewrite <- list_fmap_compose. by apply list_fmap_ext.
Qed.

Lemma start_game_twice (g : t) : start_game (start_game g).2 = start_game g.
Proof.
  unfold start_game.
  destruct (negb (Z.of_nat (length (players g)) =? 2)) eqn:Hlen; simpl;
    by rewrite Hlen.
Qed.

End Setup.

(** X14: [reset_game] is idempotent.  On a reachable game with two players it
    gives exactly the state of a new game of the same size to which the same
    two players were added and which was started, so that the [start_game]
    that [handle_game_command] calls after it returns [True] and changes
    nothing.  With any other number of players the reset game is in
    [SETUP] and [start_game] returns [False]. *)
Theorem reset_game_is_fresh_start (g : Game.t) :
  Game.reset_game (Game.reset_game g) = Game.reset_game g
  ∧ (Game.reachable g → ∀ p1 p2, Game.players g = [p1; p2] →
     Game.reset_game g
     = (Game.start_game
          (Game.add_player
             (Game.add_player
                (Game.new (Board.rows (Game.board g))
                          (Board.cols (Game.board g)))
                (Player.name p1) (Player.color p1) (Player.player_type p1)).2
             (Player.name p2) (Player.color p2) (Player.player_type p2)).2).2
     ∧ Game.start_game (Game.reset_game g) = (true, Game.reset_game g))
  ∧ (length (Game.players g) ≠ 2%nat →
     Game.game_state (Game.reset_game g) = Game.SETUP
     ∧ Game.start_game (Game.reset_game g) = (false, Game.reset_game g)).
Proof.
  split; [apply reset_game_twice|]. split.
  - intros Hreach p1 p2 Hps.
    pose proof (reachable_invariant g Hreach) as Hinv.
    pose proof (inv_ids g Hinv 0%nat p1) as Hid1.
    pose proof (inv_ids g Hinv 1%nat p2) as Hid2.
    rewrite Hps in Hid1, Hid2. specialize (Hid1 eq_refl).
    specialize (Hid2 eq_refl). simpl in Hid1, Hid2.
    unfold Game.reset_game, Game.start_game, Game.add_player.
    rewrite Hps. simpl.
    rewrite !set_moves_made_new, Hid1, Hid2. done.
  - intros Hlen. unfold Game.reset_game, Game.start_game. simpl.
    rewrite length_fmap.
    destruct (Z.eqb_spec (Z.of_nat (length (Game.players g))) 2); [lia|done].
Qed.

Lemma reset_game_is_fresh_start_witness :
  Game.reachable game_3x3_won
  ∧ Game.reset_game game_3x3_won = game_3x3.
Proof.
  split; [exact reachable_game_3x3_won|].
  destruct (reset_game_is_fresh_start game_3x3_won) as (_ & H & _).
  assert (Hps : Game.players game_3x3_won
                = [Player.set_moves_made
                     (Player.new 1 "Player 1" "Red" Player.HUMAN) 2;
                   Player.set_moves_made
                     (Player.new 2 "Player 2" "Blue" Player.HUMAN) 1])
    by (vm_compute; reflexivity).
  destruct (H reachable_game_3x3_won _ _ Hps) as [Hreset _].
  rewrite Hreset. reflexivity.
Defined.

(** X15: In every reachable state there are at most two players, numbered 1
    and 2 in the order in which they were added; while there are fewer than
    two the game is in [SETUP] with an empty history, and [add_player]
    returns a player with the next number and no moves, appends it and
    changes nothing else. *)
Theorem players_are_numbered_in_order (g : Game.t) :
  Game.reachable g →
  (length (Game.players g) ≤ 2)%nat
  ∧ (∀ i p, Game.players g !! i = Some p →
            Player.player_id p = Z.of_nat i + 1)
  ∧ (Game.game_state g ≠ Game.SETUP → length (Game.players g) = 2%nat)
  ∧ ((length (Game.players g) < 2)%nat →
     Game.game_state g = Game.SETUP ∧ Game.move_history g = []
     ∧ ∀ name color ty,
         let p := Player.new (Z.of_nat (length (Game.players g)) + 1)
                             name color ty in
         Game.add_player g name color ty
         = (Game.Returns p,
            {| Game.board := Game.board g;
               Game.players := Game.players g ++ [p];
               Game.current_player_index := Game.current_player_index g;
               Game.game_state := Game.game_state g;
               Game.winner := Game.winner g;
               Game.move_history := Game.move_history g |})).
Proof.
  intros Hreach. pose proof (reachable_invariant g Hreach) as Hinv.
  split; [apply (inv_at_most_two g Hinv)|].
  split; [apply (inv_ids g Hinv)|].
  split; [apply (inv_started g Hinv)|].
  intros Hlen.
  assert (Hsetup : Game.game_state g = Game.SETUP).
  { destruct (decide (Game.game_state g = Game.SETUP)) as [|Hne]; [done|].
    apply (inv_started g Hinv) in Hne. lia. }
  split; [done|]. split; [by apply (inv_setup g Hinv)|].
  intros name color ty p. unfold Game.add_player.
  destruct (Z.leb_spec 2 (Z.of_nat (length (Game.players g)))); [lia|done].
Qed.

Lemma players_are_numbered_in_order_witness :
  Game.reachable (Game.new 6 6)
  ∧ (length (Game.players (Game.new 6 6)) < 2)%nat
  ∧ (Game.add_player (Game.new 6 6) "Ann" "Red" Player.HUMAN).1
    = Game.Returns (Player.new 1 "Ann" "Red" Player.HUMAN).
Proof.
  assert (H1 : Game.reachable (Game.new 6 6)) by apply Game.reach_new.
  assert (H2 : (length (Game.players (Game.new 6 6)) < 2)%nat)
    by (simpl; lia).
  split; [exact H1|]. split; [exact H2|].
  destruct (players_are_numbered_in_order (Game.new 6 6) H1)
    as (_ & _ & _ & H).
  destruct (H H2) as (_ & _ & Hadd).
  rewrite (Hadd "Ann" "Red" Player.HUMAN). reflexivity.
Defined.

(** X16: [get_current_player] returns [None] in every state that is not
    [PLAYING]; in a reachable [PLAYING] state it does not raise and returns
    the player at the turn index, whose id is the index plus one. *)
Theorem get_current_player_spec (g : Game.t) :
  (Game.game_state g ≠ Game.PLAYING →
   Game.get_current_player g = Game.Returns None)
  ∧ (Game.reachable g → Game.game_state g = Game.PLAYING →
     ∃ i p, Game.get_current_player g = Game.Returns (Some (i, p))
            ∧ Game.current_player_index g = Z.of_nat i
            ∧ Game.players g !! i = Some p
            ∧ Player.player_id p = Game.current_player_index g + 1
            ∧ current_player_id g = Some (Game.current_player_index g + 1)).
Proof.
  split.
  - intros Hst. unfold Game.get_current_player.
    by rewrite (bool_decide_eq_false_2 _ Hst).
  - intros Hreach Hst.
    destruct (get_current_player_playing g (reachable_invariant g Hreach) Hst)
      as (i & p & Hcur & Hidx & Hp & Hid & _).
    exists i, p. unfold current_player_id. rewrite Hcur, Hidx, Hid. done.
Qed.

Lemma get_current_player_spec_witness :
  Game.reachable game_3x3_one_move
  ∧ Game.game_state game_3x3_one_move = Game.PLAYING
  ∧ current_player_id game_3x3_one_move
    = Some (Game.current_player_index game_3x3_one_move + 1).
Proof.
  assert (H : Game.game_state game_3x3_one_move = Game.PLAYING)
    by (vm_compute; reflexivity).
  split; [exact reachable_game_3x3_one_move|]. split; [exact H|].
  destruct (proj2 (get_current_player_spec game_3x3_one_move)
              reachable_game_3x3_one_move H)
    as (i & p & _ & _ & _ & _ & Hid).
  exact Hid.
Defined.

Section Runs.
Import Game.

Lemma make_move_board_size (g : t) (n1 n2 : Board.Node) :
  invariant g →
  Board.rows (board (make_move g n1 n2).2) = Board.rows (board g)
  ∧ Board.cols (board (make_move g n1 n2).2) = Board.cols (board g).
Proof.
  intros Hinv.
  destruct (decide (game_state g = PLAYING)) as [Hst|Hst];
    [|by rewrite make_move_not_playing].
  by destruct (make_move_playing g n1 n2 Hinv Hst)
    as (i & p & _ & _ & _ & _ & [[_ ->]|[(_ & _ & ->)|(_ & _ & ->)]]).
Qed.

Lemma undo_last_move_board_size (g : t) :
  invariant g →
  Board.rows (board (undo_last_move g).2) = Board.rows (board g)
  ∧ Board.cols (board (undo_last_move g).2) = Board.cols (board g).
Proof.
  intros Hinv.
  destruct (decide (move_history g = [])) as [Hnil|Hne];
    [by rewrite undo_last_move_refused by (by left)|].
  destruct (decide (game_state g = FINISHED)) as [Hfin|Hst];
    [by rewrite undo_last_move_refused by (by right)|].
  by destruct (undo_last_move_playing g Hinv Hne Hst) as (h & m & _ & ->).
Qed.

Lemma add_player_keeps (g : t) name color ty :
  board (add_player g name color ty).2 = board g
  ∧ game_state (add_player g name color ty).2 = game_state g.
Proof.
  unfold add_player. by destruct (2 <=? Z.of_nat (length (players g))).
Qed.

Lemma empty_history_undecided (g : t) :
  invariant g → move_history g = [] →
  Board.rows (board g) ≠ 1 → Board.cols (board g) ≠ 1 →
  undecided (board g).
Proof.
  intros Hinv Hnil Hr Hc.
  assert (Hnone : ∀ pid, Board.get_player_edges (board g) pid = ∅).
  { intros pid. apply set_eq. intros e. rewrite get_player_edges_spec.
    split; [|by intros ?%not_elem_of_empty]. intros He.
    pose proof (inv_owned g Hinv e _ He (player_state_not_empty pid)) as Hin.
    rewrite Hnil in Hin. by apply elem_of_nil in Hin. }
  by apply no_edges_no_win.
Qed.

(** Clearing an edge gives nobody a winning path. *)
Lemma clear_edge_no_new_path (b : Board.t) (e : Board.Edge) (q : Z) :
  Board.has_winning_path
    (Board.set_edges b (<[e := Board.EMPTY]> (Board.edges b))) q = true →
  Board.has_winning_path b q = true.
Proof.
  apply has_winning_path_mono; [done|done|].
  intros e'. simpl. destruct (decide (e' = e)) as [->|Hne].
  - rewrite lookup_insert_eq. intros [= H]. symmetry in H.
    by apply player_state_not_empty in H.
  - by rewrite lookup_insert_ne.
Qed.

Lemma played_undecided (g : t) :
  played g → Board.rows (board g) ≠ 1 → Board.cols (board g) ≠ 1 →
  game_state g ≠ FINISHED → undecided (board g).
Proof.
  induction 1 as [g Hr Hnil Hidx|g name color ty Hp IH|g n1 n2 Hp IH
                  |g Hp IH|g Hp IH].
  - intros Hrows Hcols _.
    by apply empty_history_undecided; [apply reachable_invariant|..].
  - destruct (add_player_keeps g name color ty) as [-> ->]. exact IH.
  - pose proof (reachable_invariant g (played_reachable g Hp)) as Hinv.
    destruct (make_move_board_size g n1 n2 Hinv) as [-> ->].
    intros Hrows Hcols.
    destruct (decide (game_state g = PLAYING)) as [Hst|Hst];
      [|rewrite make_move_not_playing by done; by apply IH].
    specialize (IH Hrows Hcols ltac:(by rewrite Hst)).
    destruct (make_move_playing g n1 n2 Hinv Hst)
      as (i & p & _ & _ & Hid & Hi & [[_ ->]|[(_ & _ & ->)|(He & Hlose & ->)]]);
      fields; [done|done|].
    intros _. destruct IH as [IH1 IH2].
    assert (Hpid : Player.player_id p = 1 ∨ Player.player_id p = 2) by lia.
    split; apply Bool.not_true_iff_false; intros Hwin.
    + destruct Hpid as [Hpid|Hpid]; rewrite Hpid in *; [congruence|].
      apply Bool.not_true_iff_false in IH1. apply IH1. revert Hwin.
      apply has_winning_path_mono; [done|done|]. intros e. simpl.
      destruct (decide (e = Board._normalize_edge n1 n2)) as [->|Hne].
      * rewrite lookup_insert_eq. by intros [= ?].
      * by rewrite lookup_insert_ne.
    + destruct Hpid as [Hpid|Hpid]; rewrite Hpid in *; [|congruence].
      apply Bool.not_true_iff_false in IH2. apply IH2. revert Hwin.
      apply has_winning_path_mono; [done|done|]. intros e. simpl.
      destruct (decide (e = Board._normalize_edge n1 n2)) as [->|Hne].
      * rewrite lookup_insert_eq. by intros [= ?].
      * by rewrite lookup_insert_ne.
  - pose proof (reachable_invariant g (played_reachable g Hp)) as Hinv.
    destruct (undo_last_move_board_size g Hinv) as [-> ->].
    intros Hrows Hcols.
    destruct (decide (move_history g = [])) as [Hnil|Hne];
      [rewrite undo_last_move_refused by (by left); by apply IH|].
    destruct (decide (game_state g = FINISHED)) as [Hfin|Hst];
      [by rewrite undo_last_move_refused by (by right)|].
    destruct (undo_last_move_playing g Hinv Hne Hst) as (h & m & _ & ->).
    fields. intros _. destruct (IH Hrows Hcols Hst) as [IH1 IH2].
    split; apply Bool.not_true_iff_false; intros Hwin;
      apply clear_edge_no_new_path in Hwin; congruence.
  - simpl. intros Hrows Hcols _.
    apply no_edges_no_win; simpl; try done; apply get_player_edges_new.
Qed.

Lemma undo_times_spec (n : nat) (g : t) :
  played g → game_state g ≠ FINISHED → length (move_history g) = n →
  played (undo_times n g)
  ∧ move_history (undo_times n g) = []
  ∧ game_state (undo_times n g) = game_state g
  ∧ Board.rows (board (undo_times n g)) = Board.rows (board g)
  ∧ Board.cols (board (undo_times n g)) = Board.cols (board g).
Proof.
  revert g. induction n as [|n IH]; intros g Hp Hst Hlen; simpl.
  - split; [done|]. split; [by destruct (move_history g)|done].
  - pose proof (reachable_invariant g (played_reachable g Hp)) as Hinv.
    assert (Hne : move_history g ≠ []) by (by destruct (move_history g)).
    destruct (undo_last_move_board_size g Hinv) as [Hr Hc].
    destruct (undo_last_move_playing g Hinv Hne Hst) as (h & m & Hh & Hu).
    destruct (IH (undo_last_move g).2) as (H1 & H2 & H3 & H5 & H6).
    + by apply played_undo_last_move.
    + by rewrite Hu.
    + rewrite Hu. fields. rewrite Hh, length_app in Hlen. simpl in Hlen. lia.
    + split; [done|]. split; [done|]. split; [by rewrite H3, Hu|].
      by rewrite H5, H6, Hr, Hc.
Qed.

End Runs.

(** X17: As long as [start_game] is not called again after play has begun, on a
    board with more than one row and more than one column, nobody has a
    winning path while the game is not [FINISHED]. *)
Theorem unfinished_game_is_undecided (g : Game.t) :
  played g →
  Board.rows (Game.board g) ≠ 1 → Board.cols (Game.board g) ≠ 1 →
  Game.game_state g ≠ Game.FINISHED →
  Board.has_winning_path (Game.board g) 1 = false
  ∧ Board.has_winning_path (Game.board g) 2 = false.
Proof. apply played_undecided. Qed.

Lemma played_game_3x3_two_moves : played game_3x3_two_moves.
Proof.
  unfold game_3x3_two_moves, game_3x3_one_move.
  apply played_make_move, played_make_move, played_begin;
    [exact reachable_game_3x3|reflexivity|reflexivity].
Defined.

Lemma unfinished_game_is_undecided_witness :
  played game_3x3_two_moves
  ∧ Game.game_state game_3x3_two_moves ≠ Game.FINISHED
  ∧ Board.has_winning_path (Game.board game_3x3_two_moves) 1 = false.
Proof.
  assert (H1 : Board.rows (Game.board game_3x3_two_moves) ≠ 1)
    by (vm_compute; discriminate).
  assert (H2 : Board.cols (Game.board game_3x3_two_moves) ≠ 1)
    by (vm_compute; discriminate).
  assert (H3 : Game.game_state game_3x3_two_moves ≠ Game.FINISHED)
    by (vm_compute; discriminate).
  split; [exact played_game_3x3_two_moves|]. split; [exact H3|].
  exact (proj1 (unfinished_game_is_undecided game_3x3_two_moves
                  played_game_3x3_two_moves H1 H2 H3)).
Defined.

Section Redo.
Import Game.

Lemma set_moves_made_forth (p : Player.t) :
  Player.set_moves_made
    (Player.set_moves_made p (Player.moves_made p - 1))
    (Player.moves_made
       (Player.set_moves_made p (Player.moves_made p - 1)) + 1)
  = p.
Proof.
  destruct p. unfold Player.set_moves_made. simpl. f_equal. lia.
Qed.

Lemma redo_players (p1 p2 p : Player.t) (i : nat) :
  Player.player_id p1 = 1 → Player.player_id p2 = 2 → (i < 2)%nat →
  decrement_moves [p1; p2] (Z.of_nat i + 1) !! i = Some p →
  <[i := Player.set_moves_made p (Player.moves_made p + 1)]>
    (decrement_moves [p1; p2] (Z.of_nat i + 1))
  = [p1; p2].
Proof.
  intros Hid1 Hid2 Hi. destruct i as [|[|i]]; [| |lia]; simpl;
    rewrite ?Hid1, ?Hid2; simpl; intros [= <-]; repeat f_equal;
    apply set_moves_made_forth.
Qed.

Lemma redo_after_undo (g : t) (h : list Move) (n1 n2 : Board.Node) (pid : Z) :
  played g → Board.rows (board g) ≠ 1 → Board.cols (board g) ≠ 1 →
  game_state g = PLAYING → move_history g = h ++ [(n1, n2, pid)] →
  (undo_last_move g).1 = Returns true
  ∧ make_move (undo_last_move g).2 n1 n2 = (Returns true, g).
Proof.
  intros Hp Hrows Hcols Hst Hh.
  pose proof (reachable_invariant g (played_reachable g Hp)) as Hinv.
  pose proof (invariant_undo_last_move g Hinv) as Hinv1.
  assert (Hne : move_history g ≠ []) by (rewrite Hh; by destruct h).
  assert (Hnf : game_state g ≠ FINISHED) by (by rewrite Hst).
  destruct (played_in_step g Hp Hnf) as [Hturn Hhist].
  destruct (played_undecided g Hp Hrows Hcols Hnf) as [Hu1 Hu2].
  destruct (two_players g Hinv) as (p1 & p2 & Hps & Hid1 & Hid2);
    [by rewrite Hst|].
  destruct (inv_history g Hinv (n1, n2, pid)) as [Hpid Hlook].
  { rewrite Hh. apply elem_of_app. right. by apply list_elem_of_singleton. }
  unfold move_edge in Hlook. cbn [fst snd] in Hpid, Hlook.
  pose proof (Hhist (length h) (n1, n2, pid)) as Hmover.
  rewrite Hh in Hmover. specialize (Hmover (list_lookup_middle _ _ _ _ eq_refl)).
  cbn [snd] in Hmover.
  rewrite Hh, length_app, Nat.add_1_r, turn_of_S in Hturn.
  destruct (undo_last_move_playing g Hinv Hne Hnf) as (h' & m & Hh' & Hu).
  rewrite Hh in Hh'. apply app_inj_tail in Hh' as [<- <-].
  rewrite Hu in Hinv1 |- *. fields in Hinv1. fields. split; [done|].
  unfold move_edge in *. cbn [fst snd] in *.
  assert (Hboard : Board.set_edges
            (Board.set_edges (board g)
               (<[Board._normalize_edge n1 n2 := Board.EMPTY]>
                  (Board.edges (board g))))
            (<[Board._normalize_edge n1 n2 := Board.player_state pid]>
               (<[Board._normalize_edge n1 n2 := Board.EMPTY]>
                  (Board.edges (board g))))
          = board g).
  { destruct (board g) as [r c es]. unfold Board.set_edges.
    cbn [Board.rows Board.cols Board.edges] in *.
    f_equal. rewrite insert_insert_eq. by apply insert_id. }
  set (g1 := {| board := _ |}) in *.
  destruct (make_move_playing g1 n1 n2 Hinv1 Hst)
    as (i & p & Hidx & Hpl & Hid & Hi & Hcases).
  subst g1. fields in Hidx. fields in Hpl. fields in Hcases.
  assert (Hpe : pid = Z.of_nat i + 1) by lia.
  rewrite Hid, <- Hpe in Hcases.
  cbv zeta in Hcases. fields in Hcases. rewrite Hboard in Hcases.
  destruct Hcases as [[He _]|[(_ & Hwin & _)|(_ & _ & ->)]].
  - by rewrite lookup_insert_eq in He.
  - destruct Hpid as [Hp1|Hp2]; [rewrite Hp1 in Hwin|rewrite Hp2 in Hwin];
      congruence.
  - f_equal. destruct g as [b ps idx st w hist]. fields in Hps.
    fields in Hh. fields in Hpl. fields.
    rewrite Hps, Hpe in Hpl.
    f_equal.
    + rewrite Hps, Hpe. by apply redo_players.
    + lia.
    + by rewrite Hh.
Qed.

(** With an empty history the board is as its constructor made it. *)
Lemma empty_history_new_board (g : t) :
  invariant g → move_history g = [] →
  board g = Board.new (Board.rows (board g)) (Board.cols (board g)).
Proof.
  intros Hinv Hnil. pose proof (inv_grid g Hinv) as Hgrid.
  pose proof (inv_owned g Hinv) as Howned. rewrite Hnil in Howned.
  unfold on_grid in Hgrid.
  destruct (board g) as [r c es]. unfold Board.new. simpl in *. f_equal.
  apply map_eq. intros e.
  destruct (es !! e) as [st|] eqn:He.
  - assert (st = Board.EMPTY) as ->.
    { destruct (decide (st = Board.EMPTY)) as [|Hne]; [done|].
      by apply (Howned e st He), elem_of_nil in Hne. }
    assert (Hd : e ∈ dom es) by (apply elem_of_dom; eauto).
    rewrite Hgrid in Hd. apply elem_of_dom in Hd as [st' Hst'].
    rewrite Hst'. f_equal. symmetry.
    by apply (new_all_empty r c e st').
  - symmetry. apply not_elem_of_dom. rewrite <- Hgrid.
    by apply not_elem_of_dom.
Qed.

End Redo.

(** X18: The round trip the other way from C3.  As long as [start_game] is not
    called again after play has begun, on a board with more than one row and
    column: in a game that is [PLAYING], undoing the last move and making the
    same move again gives back exactly the state before the undo. *)
Theorem undo_then_same_move_restores
    (g : Game.t) (h : list Game.Move) (n1 n2 : Board.Node) (pid : Z) :
  played g →
  Board.rows (Game.board g) ≠ 1 → Board.cols (Game.board g) ≠ 1 →
  Game.game_state g = Game.PLAYING →
  Game.move_history g = h ++ [(n1, n2, pid)] →
  (Game.undo_last_move g).1 = Game.Returns true
  ∧ Game.make_move (Game.undo_last_move g).2 n1 n2 = (Game.Returns true, g).
Proof. apply redo_after_undo. Qed.

Lemma undo_then_same_move_restores_witness :
  played game_3x3_two_moves
  ∧ Game.move_history game_3x3_two_moves
    = [((0, 0), (1, 0), 1)] ++ [((0, 1), (0, 2), 2)]
  ∧ Game.make_move (Game.undo_last_move game_3x3_two_moves).2 (0, 1) (0, 2)
    = (Game.Returns true, game_3x3_two_moves).
Proof.
  assert (H1 : Board.rows (Game.board game_3x3_two_moves) ≠ 1)
    by (vm_compute; discriminate).
  assert (H2 : Board.cols (Game.board game_3x3_two_moves) ≠ 1)
    by (vm_compute; discriminate).
  assert (H3 : Game.game_state game_3x3_two_moves = Game.PLAYING)
    by (vm_compute; reflexivity).
  assert (H4 : Game.move_history game_3x3_two_moves
               = [((0, 0), (1, 0), 1)] ++ [((0, 1), (0, 2), 2)])
    by (vm_compute; reflexivity).
  split; [exact played_game_3x3_two_moves|]. split; [exact H4|].
  exact (proj2 (undo_then_same_move_restores game_3x3_two_moves _ _ _ _
                  played_game_3x3_two_moves H1 H2 H3 H4)).
Defined.

(** X19: As long as [start_game] is not called again after play has begun,
    undoing as many times as there are moves in the history of an unfinished
    game leaves an empty history, the board as its constructor made it,
    player 1 to move and every move counter at zero, in the same phase. *)
Theorem undoing_every_move_gives_new_board (g : Game.t) :
  played g → Game.game_state g ≠ Game.FINISHED →
  let g' := undo_times (length (Game.move_history g)) g in
  Game.move_history g' = []
  ∧ Game.board g'
    = Board.new (Board.rows (Game.board g)) (Board.cols (Game.board g))
  ∧ Game.current_player_index g' = 0
  ∧ (∀ i p, Game.players g' !! i = Some p → Player.moves_made p = 0)
  ∧ Game.game_state g' = Game.game_state g.
Proof.
  intros Hp Hnf g'.
  destruct (undo_times_spec (length (Game.move_history g)) g Hp Hnf eq_refl)
    as (Hp' & Hnil & Hst & Hr & Hc).
  fold g' in Hp', Hnil, Hst, Hr, Hc.
  pose proof (played_reachable g' Hp') as Hreach.
  pose proof (reachable_invariant g' Hreach) as Hinv.
  split; [done|]. split; [|split; [|split; [|done]]].
  - rewrite <- Hr, <- Hc. by apply empty_history_new_board.
  - destruct (played_in_step g' Hp') as [Hturn _]; [by rewrite Hst|].
    by rewrite Hturn, Hnil.
  - intros i p Hpl.
    rewrite (book_counter g' (reachable_bookkeeping g' Hreach) i p Hpl).
    by rewrite Hnil.
Qed.

Lemma undoing_every_move_gives_new_board_witness :
  played game_3x3_two_moves
  ∧ Game.game_state game_3x3_two_moves ≠ Game.FINISHED
  ∧ Game.board (undo_times 2 game_3x3_two_moves) = Board.new 3 3.
Proof.
  assert (H : Game.game_state game_3x3_two_moves ≠ Game.FINISHED)
    by (vm_compute; discriminate).
  split; [exact played_game_3x3_two_moves|]. split; [exact H|].
  destruct (undoing_every_move_gives_new_board game_3x3_two_moves
              played_game_3x3_two_moves H) as (_ & Hb & _).
  exact Hb.
Defined.


(** ** Small boards, evaluated *)

Example board_3x3_size : size (Board.edges (Board.new 3 3)) = 12%nat.
Proof. vm_compute. reflexivity. Qed.

Example empty_3x3_no_win :
  Board.has_winning_path_opt (Board.new 3 3) 1 = Some false.
Proof. vm_compute. reflexivity. Qed.

Example empty_3x3_no_win_player2 :
  Board.has_winning_path (Board.new 3 3) 2 = false.
Proof. vm_compute. reflexivity. Qed.

Example column_0_joins_top_and_bottom :
  Board.get_player_edges (Game.board game_3x3_won) 1
  = {[ ((0, 0), (1, 0)); ((1, 0), (2, 0)) ]}
  ∧ Board.has_winning_path (Game.board game_3x3_won) 1 = true
  ∧ Board.has_winning_path (Game.board game_3x3_won) 2 = false.
Proof. repeat split; vm_compute; reflexivity. Qed.

Example neighbors_of_corner :
  Board.get_neighbors (Board.new 3 3) (0, 0) = [(1, 0); (0, 1)].
Proof. reflexivity. Qed.

Example neighbors_of_centre :
  Board.get_neighbors (Board.new 3 3) (1, 1) = [(0, 1); (2, 1); (1, 0); (1, 2)].
Proof. reflexivity. Qed.
